(** * rain: peer connection establishment and transfer start-up

    A shallow embedding of the Go sources

      - [internal/peermanager/acceptor/handler/handler.go]  (inbound handler)
      - [internal/peermanager/dialer/dialer.go]             (outbound dialer,
        followed by the transfer coordinator and the file preparer)

    Effects are explicit: the file preparer runs in a small state-and-error
    monad over a disk, the handlers produce the sequence of calls they make on
    their collaborators, and the dialer's goroutines are a labelled transition
    system whose labels are the scheduler's choices. *)

From stdpp Require Import gmap strings list.
From Stdlib Require Import ZArith Lia.

Local Open Scope Z_scope.

(** ** File preparer: [openOrAllocate] and [prepareFiles] *)

Module FilePreparer.

(** The calls made on the operating system, in program order. *)
Inductive Syscall : Type :=
| SysMkdirAll (dir : string)
| SysOpen (path : string)
| SysStat (path : string)
| SysTruncate (path : string) (length : Z)
| SysSync (path : string)
| SysClose (path : string).

(** [err] values.  The first five are whatever the operating system
    reported; the last is the [fmt.Errorf] of [openOrAllocate]. *)
Inductive Error : Type :=
| ErrMkdirAll (dir : string)
| ErrOpen (path : string)
| ErrStat (path : string)
| ErrTruncate (path : string)
| ErrSync (path : string)
| ErrSizeMismatch (path : string) (expected actual : Z).

(** Which operating-system calls fail on a given path.  The code does not
    choose this; every result below is stated for an arbitrary choice. *)
Record Faults : Type := mkFaults {
  open_fails : bool;
  stat_fails : bool;
  truncate_fails : bool;
  sync_fails : bool
}.

Definition no_faults : Faults := mkFaults false false false false.

(** The disk maps the path of each regular file to its size ([fi.Size()]). *)
Record World : Type := mkWorld {
  disk : gmap string Z;
  calls : list Syscall
}.

(** An open [*os.File]; it is identified by the path it was opened on. *)
Record Handle : Type := mkHandle { h_path : string }.

Definition IO (A : Type) : Type := World -> World * (Error + A).

Definition ret {A} (a : A) : IO A := fun w => (w, inr a).
Definition throw {A} (e : Error) : IO A := fun w => (w, inl e).
Definition bind {A B} (c : IO A) (k : A -> IO B) : IO B :=
  fun w => match c w with
           | (w', inl e) => (w', inl e)
           | (w', inr a) => k a w'
           end.

Notation "'let*' x ':=' c 'in' k" := (bind c (fun x => k))
  (at level 10, x pattern, c at level 100, k at level 200).
Notation "c1 '>>' c2" := (bind c1 (fun _ => c2))
  (at level 100, c2 at level 200, right associativity).

Definition emit (s : Syscall) : IO unit :=
  fun w => (mkWorld (disk w) (calls w ++ [s]), inr tt).

Definition set_size (path : string) (n : Z) : IO unit :=
  fun w => (mkWorld (<[path := n]> (disk w)) (calls w), inr tt).

Definition get_size (path : string) : IO Z :=
  fun w => (w, inr (default 0 (disk w !! path))).

Definition is_file (path : string) : IO bool :=
  fun w => (w, inr (bool_decide (is_Some (disk w !! path)))).

(** The size [Stat] reports once [OpenFile] has run: an absent file has just
    been created empty. *)
Definition size_at_stat (w : World) (path : string) : Z :=
  default 0 (disk w !! path).

Section Prepare.

(** The environment: which calls fail, and the two [path/filepath] functions
    the code uses. *)
Variable faults : string -> Faults.
Variable mkdir_fails : string -> bool.
Variable Join : list string -> string.
Variable Dir : string -> string.

(** [os.OpenFile(path, os.O_RDWR|os.O_CREATE, 0640)]: opens the file, creating
    it empty when it is absent. *)
Definition OpenFile (path : string) : IO Handle :=
  emit (SysOpen path) >>
  if open_fails (faults path) then throw (ErrOpen path)
  else
    let* present := is_file path in
    (if present : bool then ret tt else set_size path 0) >>
    ret (mkHandle path).

(** [f.Stat()], of which only [Size()] is used. *)
Definition Stat (f : Handle) : IO Z :=
  emit (SysStat (h_path f)) >>
  if stat_fails (faults (h_path f)) then throw (ErrStat (h_path f))
  else get_size (h_path f).

Definition Truncate (f : Handle) (length : Z) : IO unit :=
  emit (SysTruncate (h_path f) length) >>
  if truncate_fails (faults (h_path f)) then throw (ErrTruncate (h_path f))
  else set_size (h_path f) length.

Definition Sync (f : Handle) : IO unit :=
  emit (SysSync (h_path f)) >>
  if sync_fails (faults (h_path f)) then throw (ErrSync (h_path f))
  else ret tt.

Definition MkdirAll (dir : string) : IO unit :=
  emit (SysMkdirAll dir) >>
  if mkdir_fails dir then throw (ErrMkdirAll dir) else ret tt.

(** [defer func() { if err != nil { f.Close() } }()] *)
Definition close_on_error {A} (f : Handle) (body : IO A) : IO A :=
  fun w => match body w with
           | (w', inl e) => (fst (emit (SysClose (h_path f)) w'), inl e)
           | r => r
           end.

(** [openOrAllocate(path, length) (f, exists, err)] *)
Definition openOrAllocate (path : string) (length : Z) : IO (Handle * bool) :=
  let* f := OpenFile path in
  close_on_error f (
    let* fi_size := Stat f in
    if (fi_size =? 0) && negb (length =? 0) then
      Truncate f length >>
      Sync f >>
      ret (f, false)
    else
      if negb (fi_size =? length) then
        throw (ErrSizeMismatch path length fi_size)
      else
        ret (f, true)).

(** [torrent.Info], as far as [prepareFiles] reads it. *)
Record FileDict : Type := mkFileDict {
  fd_Length : Z;
  fd_Path : list string
}.

Record Info : Type := mkInfo {
  MultiFile : bool;
  Name : string;
  Length : Z;
  Files : list FileDict
}.

(** The [for i, f := range info.Files] loop; [files] and [checkHash] are the
    named results built up so far. *)
Fixpoint prepareLoop (where_ name : string) (fs : list FileDict)
    (files : list Handle) (checkHash : bool) : IO (list Handle * bool) :=
  match fs with
  | [] => ret (files, checkHash)
  | f :: rest =>
      let path := Join ([where_; name] ++ fd_Path f) in
      MkdirAll (Dir path) >>
      let* (h, exists_) := openOrAllocate path (fd_Length f) in
      prepareLoop where_ name rest (files ++ [h])
                  (if exists_ : bool then true else checkHash)
  end.

(** [prepareFiles(info, where) (files, checkHash, err)] *)
Definition prepareFiles (info : Info) (where_ : string)
    : IO (list Handle * bool) :=
  if negb (MultiFile info) then
    let* (f, exists_) := openOrAllocate (Join [where_; Name info]) (Length info) in
    ret ([f], if exists_ : bool then true else false)
  else
    prepareLoop where_ (Name info) (Files info) [] false.

End Prepare.

(** Counting the calls of one kind in a list of calls. *)
Definition is_close (s : Syscall) : bool :=
  match s with SysClose _ => true | _ => false end.

Definition is_open (s : Syscall) : bool :=
  match s with SysOpen _ => true | _ => false end.

Definition close_count (cs : list Syscall) : nat :=
  List.length (List.filter is_close cs).

Definition open_count (cs : list Syscall) : nat :=
  List.length (List.filter is_open cs).

(** The path a call is made on. *)
Definition call_path (s : Syscall) : string :=
  match s with
  | SysMkdirAll p | SysOpen p | SysStat p | SysTruncate p _
  | SysSync p | SysClose p => p
  end.

(** Errors raised after the file has been opened. *)
Definition after_open (e : Error) : bool :=
  match e with
  | ErrStat _ | ErrTruncate _ | ErrSync _ | ErrSizeMismatch _ _ _ => true
  | ErrMkdirAll _ | ErrOpen _ => false
  end.

End FilePreparer.

(** ** Capability bitset *)

Module bitfield.

(** Modelled from the spec: package [internal/bitfield] is not among the
    sources.  Section 2 of the spec gives a fixed-width bit vector over a
    byte slice with set, test, AND, cardinality and all-bits-set.  Bits are
    numbered as on the wire: bit [i] is bit [7 - i mod 8] of byte [i / 8], so
    that bit 61 of the reserved field is [0x04] of its last byte.
    [NewBytes] wraps the slice it is given without copying it: the inbound
    handler sets bit 61 through the bitfield and then sends the array. *)
Record Bitfield : Type := mkBitfield {
  b : list Z;
  length : nat
}.

Definition NewBytes (bytes : list Z) (length : nat) : Bitfield :=
  mkBitfield bytes length.

Definition New (length : nat) : Bitfield :=
  mkBitfield (replicate ((length + 7) / 8)%nat 0) length.

Definition bit_mask (i : nat) : Z := Z.shiftl 1 (Z.of_nat (7 - i mod 8)).

Definition Set_ (bf : Bitfield) (i : nat) : Bitfield :=
  mkBitfield (alter (fun byte => Z.lor byte (bit_mask i)) (i / 8)%nat (b bf))
             (length bf).

Definition Test (bf : Bitfield) (i : nat) : bool :=
  match b bf !! (i / 8)%nat with
  | Some byte => Z.testbit byte (Z.of_nat (7 - i mod 8))
  | None => false
  end.

Definition And (bf other : Bitfield) : Bitfield :=
  mkBitfield (zip_with Z.land (b bf) (b other)) (length bf).

Definition Count (bf : Bitfield) : nat :=
  List.length (filter (fun i => Test bf i = true) (seq 0 (length bf))).

Definition All (bf : Bitfield) : bool :=
  bool_decide (Count bf = length bf).

End bitfield.

(** ** Peer identity registry *)

Module peerids.

(** Modelled from the spec: package [internal/peermanager/peerids] is not
    among the sources.  Section 4.2 of the spec: [add] is an atomic
    check-and-insert that answers false when the identifier is already
    present, [remove] deletes it and does nothing when it is absent. *)
Definition Add (ids : gset (list Z)) (id : list Z) : gset (list Z) * bool :=
  if bool_decide (id ∈ ids) then (ids, false) else ({[ id ]} ∪ ids, true).

Definition Remove (ids : gset (list Z)) (id : list Z) : gset (list Z) :=
  ids ∖ {[ id ]}.

End peerids.

(** ** Inbound connection handler: [handler.Run] *)

Module acceptor.

Import bitfield.

(** [[20]byte] and [[8]byte] values are lists of bytes. *)
Definition PeerID : Type := list Z.
Definition Hash : Type := list Z.

Inductive Cipher : Type := PlainText | RC4.

(** How the handshake negotiator can fail (section 4.1 of the spec). *)
Inductive HandshakeError : Type :=
| ErrUnknownContent
| ErrMalformedPeerID
| ErrTransportClosed
| ErrEncryptionRequired.

(** What the remote side does on an accepted socket. *)
Inductive RemoteFault : Type := ClosesMidHandshake | MalformedPeerID.

Record RemoteHello : Type := mkHello {
  hello_encrypted : bool;
  hello_sKeyHash : Hash;
  hello_infoHash : Hash;
  hello_extensions : list Z;
  hello_peerID : PeerID;
  hello_fault : option RemoteFault
}.

(** [net.Conn]: the remote address and the remote side behind it. *)
Record Conn : Type := mkConn {
  RemoteAddr : string;
  remote : RemoteHello
}.

(** The connection [btconn.Accept] hands back. *)
Record SecuredConn : Type := mkSecured {
  sc_conn : Conn;
  sc_cipher : Cipher
}.

(** The results of [btconn.Accept] that [Run] reads: either [err], or
    [encConn], [cipher], [peerExtensions] and [peerID]. *)
Inductive AcceptResult : Type :=
| AcceptErr (err : HandshakeError)
| AcceptOk (encConn : SecuredConn) (cipher : Cipher)
           (peerExtensions : list Z) (peerID : PeerID).

Definition Negotiator : Type :=
  Conn -> (Hash -> option Hash) -> bool -> (Hash -> bool) ->
  list Z -> PeerID -> AcceptResult.

(** Modelled from the spec: [btconn.Accept] is not among the sources.
    Section 4.1 of the spec: the responder resolves an obfuscated secret-key
    hash with its first callback and validates a cleartext content identifier
    with its second; it fails when the content identifier is not recognised,
    when the peer identifier exchange is malformed, when the transport closes
    mid-handshake, and when incoming encryption is forced and the remote side
    uses plain framing. *)
Definition btconn_Accept : Negotiator :=
  fun conn getSKey forceEncryption hasInfoHash ourExtensions ourID =>
    let r := remote conn in
    match hello_fault r with
    | Some ClosesMidHandshake => AcceptErr ErrTransportClosed
    | Some MalformedPeerID => AcceptErr ErrMalformedPeerID
    | None =>
        if hello_encrypted r then
          match getSKey (hello_sKeyHash r) with
          | None => AcceptErr ErrUnknownContent
          | Some _ =>
              if hasInfoHash (hello_infoHash r) then
                AcceptOk (mkSecured conn RC4) RC4
                         (hello_extensions r) (hello_peerID r)
              else AcceptErr ErrUnknownContent
          end
        else if forceEncryption : bool then AcceptErr ErrEncryptionRequired
        else if hasInfoHash (hello_infoHash r) then
          AcceptOk (mkSecured conn PlainText) PlainText
                   (hello_extensions r) (hello_peerID r)
        else AcceptErr ErrUnknownContent
    end.

(** [type Handler struct]; [peerIDs] is the shared registry and is threaded
    through [Run], [messages] and [log] carry no data used here. *)
Record Handler : Type := mkHandler {
  conn : Conn;
  bitfield : Bitfield;
  peerID : PeerID;
  sKeyHash : Hash;
  infoHash : Hash
}.

(** The calls [Run] makes on its collaborators, in program order. *)
Inductive Event : Type :=
| EvAccept (forceIncoming : bool) (ourExtensions : list Z) (ourID : PeerID)
| EvLogError (err : HandshakeError)
| EvLogInfo (cipher : Cipher) (peerExtensions : list Z) (client : list Z)
| EvConnClose
| EvAdd (id : PeerID) (ok : bool)
| EvRemove (id : PeerID)
| EvPeerNew (c : SecuredConn) (id : PeerID) (extensions bf : Bitfield)
| EvPeerRun.

(** How a call leaves: by returning or by panicking. *)
Inductive Exit : Type := Returns | Panics.

Definition getSKey (h : Handler) (sKeyHash' : Hash) : option Hash :=
  if bool_decide (sKeyHash' = sKeyHash h) then Some (infoHash h) else None.

Definition checkInfoHash (h : Handler) (infoHash' : Hash) : bool :=
  bool_decide (infoHash' = infoHash h).

Section Run.

(** The negotiator in use, how the peer session leaves, and what the other
    handlers do to the shared registry while the session runs. *)
Variable Accept : Negotiator.
Variable session : Exit.
Variable meanwhile : gset (list Z) -> gset (list Z).

(** [func (h *Handler) Run(stopC chan struct{})].  [ourbf] is a view on the
    array [ourExtensions], so [ourbf.Set(61)] writes the array that is then
    passed to [btconn.Accept].  [defer h.peerIDs.Remove(peerID)] runs when
    [p.Run] leaves, whichever way. *)
Definition Run (h : Handler) (ids : gset (list Z))
    : gset (list Z) * list Event * Exit :=
  let encryptionForceIncoming := false in
  let ourExtensions := replicate 8 0 in
  let ourbf := NewBytes ourExtensions 64 in
  let ourbf := Set_ ourbf 61 in
  let ourExtensions := b ourbf in
  let accept := EvAccept encryptionForceIncoming ourExtensions (peerID h) in
  match Accept (conn h) (getSKey h) encryptionForceIncoming (checkInfoHash h)
               ourExtensions (peerID h) with
  | AcceptErr err =>
      (ids, [accept; EvLogError err; EvConnClose], Returns)
  | AcceptOk encConn cipher peerExtensions peerID' =>
      let info := EvLogInfo cipher peerExtensions (take 8 peerID') in
      let '(ids, ok) := peerids.Add ids peerID' in
      if negb ok then
        (ids, [accept; info; EvAdd peerID' false; EvConnClose], Returns)
      else
        let peerbf := NewBytes peerExtensions 64 in
        let extensions := And ourbf peerbf in
        (peerids.Remove (meanwhile ids) peerID',
         [accept; info; EvAdd peerID' true;
          EvPeerNew encConn peerID' extensions (bitfield h); EvPeerRun;
          EvRemove peerID'],
         session)
  end.

End Run.

(** The identifiers [Remove] was called with, the number of calls made on a
    peer session ([peer.New], [p.Run]) and the number of [Close] calls. *)
Definition removals (evs : list Event) : list PeerID :=
  omap (fun e => match e with EvRemove id => Some id | _ => None end) evs.

Definition session_calls (evs : list Event) : nat :=
  List.length (List.filter (fun e => match e with
                                     | EvPeerNew _ _ _ _ | EvPeerRun => true
                                     | _ => false
                                     end) evs).

Definition closes (evs : list Event) : nat :=
  List.length (List.filter (fun e => match e with
                                     | EvConnClose => true
                                     | _ => false
                                     end) evs).

(** The reserved bytes with the Fast Extension bit: what [ourExtensions]
    holds once [ourbf.Set(61)] has run. *)
Definition fastExtension : list Z := [0; 0; 0; 0; 0; 0; 0; 4].

(** An [[8]byte] read as one 64-bit number, first byte most significant. *)
Definition uint64_of (bytes : list Z) : Z :=
  fold_left (fun acc byte => Z.lor (Z.shiftl acc 8) byte) bytes 0.

Definition is_byte (x : Z) : Prop := 0 <= x < 256.

(** The identifiers [Add] accepted. *)
Definition registered (evs : list Event) : list PeerID :=
  omap (fun e => match e with EvAdd id true => Some id | _ => None end) evs.

(** No other handler touches the registry meanwhile. *)
Definition undisturbed (ids : gset (list Z)) : gset (list Z) := ids.

End acceptor.

(** ** Transfer coordinator: [transfer.Run] and [transfer.connect] *)

Module rain.

Import bitfield.

(** [tracker.Started] and [tracker.Completed], the two announce events
    [Run] chooses between. *)
Inductive AnnounceEvent : Type := Started | Completed.

Record AnnounceResponse : Type := mkResponse {
  Error : option string;
  Seeders : Z;
  Leechers : Z;
  Peers : list string
}.

(** [config.Encryption], as far as [connect] reads it. *)
Record Encryption : Type := mkEncryption {
  DisableOutgoing : bool;
  ForceOutgoing : bool
}.

(** [type transfer struct]: the fields [Run] and [connect] read.  [pieces]
    holds, for each piece, its [peers] list. *)
Record transfer : Type := mkTransfer {
  config : Encryption;
  peerID : list Z;
  infoHash : list Z;
  bitField : Bitfield;
  pieces : list (list string)
}.

(** What reaches the run loop.  The first two are the cases of its [select];
    the third is another goroutine setting a bit of the shared [bitField]
    while the loop runs. *)
Inductive Input : Type :=
| RecvAnnounce (resp : AnnounceResponse)
| RecvHave (piece : nat) (peer : string) (downloaderReady : bool)
| PieceVerified (index : nat).

(** The calls [Run] makes, in program order. *)
Inductive Action : Type :=
| Register (infoHash : list Z)
| AnnouncePeriodically (event : AnnounceEvent)
| StartDownloader
| StartUploader
| LogError (msg : string)
| LogAnnounce (seeders leechers : Z)
| SendPeers (peers : list string)
| AppendPeer (piece : nat) (peer : string)
| NotifyDownloader.

(** The statements of [Run] before its [for] loop. *)
Definition start (t : transfer) : list Action :=
  [Register (infoHash t);
   if All (bitField t) then AnnouncePeriodically Completed
   else AnnouncePeriodically Started;
   StartDownloader;
   StartUploader].

(** One turn of [for { select { ... } }]. *)
Definition turn (t : transfer) (i : Input) : transfer * list Action :=
  match i with
  | RecvAnnounce resp =>
      match Error resp with
      | Some e => (t, [LogError e])
      | None => (t, [LogAnnounce (Seeders resp) (Leechers resp);
                     SendPeers (Peers resp)])
      end
  | RecvHave piece peer ready =>
      (mkTransfer (config t) (peerID t) (infoHash t) (bitField t)
                  (alter (fun peers => peers ++ [peer]) piece (pieces t)),
       AppendPeer piece peer :: (if ready then [NotifyDownloader] else []))
  | PieceVerified index =>
      (mkTransfer (config t) (peerID t) (infoHash t)
                  (Set_ (bitField t) index) (pieces t),
       [])
  end.

Fixpoint loop (t : transfer) (inputs : list Input) : list Action :=
  match inputs with
  | [] => []
  | i :: rest => let '(t', acts) := turn t i in acts ++ loop t' rest
  end.

(** [func (t *transfer) Run()], up to the moment it has consumed [inputs];
    the loop has no exit. *)
Definition Run (t : transfer) (inputs : list Input) : list Action :=
  start t ++ loop t inputs.

(** The announce events handed to [tracker.AnnouncePeriodically]. *)
Definition announces (acts : list Action) : list AnnounceEvent :=
  omap (fun a => match a with
                 | AnnouncePeriodically e => Some e
                 | _ => None
                 end) acts.

(** *** [connect] *)

Inductive DialError : Type :=
| ErrOwnConnection
| ErrConnect
| ErrHandshake.

(** The results of [connection.Dial] that [connect] reads. *)
Inductive DialResult : Type :=
| DialErr (err : DialError)
| DialOk (conn : string) (ext : list Z).

(** What happens on the network and in the log during [connect]. *)
Inductive ConnEvent : Type :=
| TcpConnect (addr : string)
| ConnClose (addr : string)
| LogDebug (err : DialError)
| LogDialError (err : DialError)
| NewPeer (conn : string)
| LogConnected
| LogExtensions (ext : list Z)
| Serve (conn : string).

(** The remote side reached at an address. *)
Record Remote : Type := mkRemote {
  remote_peerID : list Z;
  remote_extensions : list Z;
  remote_infoHash : list Z;
  remote_encrypts : bool
}.

Definition Dialer : Type :=
  string -> bool -> bool -> list Z -> list Z -> list Z ->
  list ConnEvent * DialResult.

(** Modelled from the spec: [connection.Dial] is not among the sources.
    Sections 4.1 and 4.4 of the spec: the initiator sends the content
    identifier and its peer identifier; the handshake fails when the content
    identifier is not the remote one or when forced encryption is not met; an
    initiator that finds the remote peer identifier equal to its own closes
    the connection and reports [ErrOwnConnection]. *)
Definition connection_Dial (net : string -> option Remote) : Dialer :=
  fun addr enableEncryption forceEncryption ourExtensions infoHash ourID =>
    match net addr with
    | None => ([TcpConnect addr], DialErr ErrConnect)
    | Some r =>
        if forceEncryption && negb (enableEncryption && remote_encrypts r) then
          ([TcpConnect addr; ConnClose addr], DialErr ErrHandshake)
        else if negb (bool_decide (remote_infoHash r = infoHash)) then
          ([TcpConnect addr; ConnClose addr], DialErr ErrHandshake)
        else if bool_decide (remote_peerID r = ourID) then
          ([TcpConnect addr; ConnClose addr], DialErr ErrOwnConnection)
        else
          ([TcpConnect addr], DialOk addr (remote_extensions r))
    end.

(** [func (t *transfer) connect(addr *net.TCPAddr)] *)
Definition connect (Dial : Dialer) (t : transfer) (addr : string)
    : list ConnEvent :=
  let '(evs, res) :=
    Dial addr (negb (DisableOutgoing (config t))) (ForceOutgoing (config t))
         (replicate 8 0) (infoHash t) (peerID t) in
  match res with
  | DialErr err =>
      evs ++
      (match err with
       | ErrOwnConnection => [LogDebug err]
       | _ => [LogDialError err]
       end)
  | DialOk conn ext =>
      evs ++ [NewPeer conn; LogConnected; LogExtensions ext; Serve conn;
              ConnClose conn]
  end.

(** *** The run loop, seen from outside *)

(** The transfer once the run loop has consumed [inputs]. *)
Fixpoint after (t : transfer) (inputs : list Input) : transfer :=
  match inputs with
  | [] => t
  | i :: rest => after (turn t i).1 rest
  end.

(** The peer lists sent to the downloader and the errors logged. *)
Definition sent_peers (acts : list Action) : list (list string) :=
  omap (fun a => match a with SendPeers ps => Some ps | _ => None end) acts.

Definition logged_errors (acts : list Action) : list string :=
  omap (fun a => match a with LogError e => Some e | _ => None end) acts.

Definition wakeups (acts : list Action) : nat :=
  List.length (List.filter (fun a => match a with
                                     | NotifyDownloader => true
                                     | _ => false
                                     end) acts).

(** What the inputs carried: the peer lists of the announces that
    succeeded, the errors of those that failed, the peers that reported a
    given piece, and the reports that found the downloader ready. *)
Definition announced_peers (inputs : list Input) : list (list string) :=
  omap (fun i => match i with
                 | RecvAnnounce resp =>
                     match Error resp with
                     | None => Some (Peers resp)
                     | Some _ => None
                     end
                 | _ => None
                 end) inputs.

Definition announce_errors (inputs : list Input) : list string :=
  omap (fun i => match i with RecvAnnounce resp => Error resp | _ => None end)
       inputs.

Definition reporters (piece : nat) (inputs : list Input) : list string :=
  omap (fun i => match i with
                 | RecvHave p peer _ =>
                     if decide (p = piece) then Some peer else None
                 | _ => None
                 end) inputs.

Definition ready_reports (inputs : list Input) : nat :=
  List.length (List.filter (fun i => match i with
                                     | RecvHave _ _ true => true
                                     | _ => false
                                     end) inputs).

(** *** [Downloaded], [Uploaded] and [Left] *)

(** A [piece], as far as [Downloaded] and [newTransfer] read it; [length]
    is a 32-bit quantity, so [int64(length)] is its value. *)
Record piece : Type := mkPiece {
  index : nat;
  p_length : Z
}.

(** [int64] arithmetic wraps around. *)
Definition wrap64 (z : Z) : Z := (z + 2 ^ 63) mod 2 ^ 64 - 2 ^ 63.

(** The body of the [for] loop of [Downloaded]; [None] is the panic of
    [t.pieces[i]] with [i] out of range. *)
Definition add_piece (bitField : Bitfield) (pieces : list piece)
    (sum : option Z) (i : nat) : option Z :=
  match sum with
  | None => None
  | Some sum =>
      if Test bitField i then
        match pieces !! i with
        | Some p => Some (wrap64 (sum + p_length p))
        | None => None
        end
      else Some sum
  end.

(** [func (t *transfer) Downloaded() int64], on [t.bitField] and
    [t.pieces]. *)
Definition Downloaded (bitField : Bitfield) (pieces : list piece) : option Z :=
  foldl (add_piece bitField pieces) (Some 0) (seq 0 (length bitField)).

(** [func (t *transfer) Uploaded() int64 { return 0 }] *)
Definition Uploaded : Z := 0.

(** [func (t *transfer) Left() int64], with [t.torrent.Info.TotalLength]. *)
Definition Left (TotalLength : Z) (bitField : Bitfield) (pieces : list piece)
    : option Z :=
  match Downloaded bitField pieces with
  | Some d => Some (wrap64 (TotalLength - d))
  | None => None
  end.

(** The lengths of the pieces whose bit is set, among the indices [l] and
    among all of them, and their sum. *)
Definition owned_in (bitField : Bitfield) (pieces : list piece)
    (l : list nat) : list Z :=
  omap (fun i => if Test bitField i then p_length <$> pieces !! i else None) l.

Definition owned (bitField : Bitfield) (pieces : list piece) : list Z :=
  owned_in bitField pieces (seq 0 (length bitField)).

Definition sumZ (l : list Z) : Z := foldr Z.add 0 l.

(** *** [newTransfer] *)

(** [torrent.Torrent], as far as [newTransfer] reads it. *)
Record Torrent : Type := mkTorrent {
  Announce : string;
  Info : FilePreparer.Info
}.

(** The three [err] values [newTransfer] can return: from [tracker.New],
    from [prepareFiles] and from [hashCheck]. *)
Inductive NewTransferError : Type :=
| ErrTracker (msg : string)
| ErrPrepare (e : FilePreparer.Error)
| ErrHashCheck (msg : string).

(** The fields of the new [transfer] that [newTransfer] computes; [nt_log]
    is the name given to [logger.New]. *)
Record NewTransfer : Type := mkNewTransfer {
  nt_files : list FilePreparer.Handle;
  nt_pieces : list piece;
  nt_bitField : Bitfield;
  nt_log : string
}.

Section NewTransfer.

(** The environment of [prepareFiles], and the three collaborators that are
    not among the sources: [tracker.New] ([None] when it succeeds),
    [newPieces] and [p.hashCheck()]. *)
Variable faults : string -> FilePreparer.Faults.
Variable mkdir_fails : string -> bool.
Variable Join : list string -> string.
Variable Dir : string -> string.
Variable trackerNew : string -> option string.
Variable newPieces : FilePreparer.Info -> list FilePreparer.Handle -> list piece.
Variable hashCheck : piece -> string + bool.

(** [for _, p := range pieces { ok, err := p.hashCheck(); ... }]: the
    indices of the pieces it hashed, and the error or the bitfield. *)
Fixpoint checkPieces (ps : list piece) (bitField : Bitfield)
    : list nat * (string + Bitfield) :=
  match ps with
  | [] => ([], inr bitField)
  | p :: rest =>
      match hashCheck p with
      | inl err => ([index p], inl err)
      | inr ok =>
          let '(hashed, r) :=
            checkPieces rest (if ok then Set_ bitField (index p) else bitField) in
          (index p :: hashed, r)
      end
  end.

(** [name := tor.Info.Name; if len(name) > 8 { name = name[:8] }] and
    ["download " + name]. *)
Definition logName (name : string) : string :=
  String.append "download "
    (if (8 <? String.length name)%nat then String.substring 0 8 name
     else name).

(** [func (r *Rain) newTransfer(tor, where)]: the disk afterwards, the
    indices of the pieces that were hashed, and the transfer or the error. *)
Definition newTransfer (tor : Torrent) (where_ : string)
    (w : FilePreparer.World)
    : FilePreparer.World * list nat * (NewTransferError + NewTransfer) :=
  match trackerNew (Announce tor) with
  | Some err => (w, [], inl (ErrTracker err))
  | None =>
      match FilePreparer.prepareFiles faults mkdir_fails Join Dir
                                      (Info tor) where_ w with
      | (w', inl e) => (w', [], inl (ErrPrepare e))
      | (w', inr (files, checkHash)) =>
          let pieces := newPieces (Info tor) files in
          let bitField := New (List.length pieces) in
          let '(hashed, r) :=
            if checkHash : bool then checkPieces pieces bitField
            else ([], inr bitField) in
          match r with
          | inl err => (w', hashed, inl (ErrHashCheck err))
          | inr bitField =>
              (w', hashed,
               inr (mkNewTransfer files pieces bitField
                                  (logName (FilePreparer.Name (Info tor)))))
          end
      end
  end.

End NewTransfer.

(** Whether some piece of [ps] with index [i] passed its hash check. *)
Definition verified (hashCheck : piece -> string + bool) (ps : list piece)
    (i : nat) : bool :=
  existsb (fun p => bool_decide (index p = i)
                    && match hashCheck p with inr true => true | _ => false end)
          ps.

(** *** [minInt64] and [minUint32] *)

Definition minInt64 (a b : Z) : Z := if a <? b then a else b.

Definition minUint32 (a b : Z) : Z := if a <? b then a else b.

(** What [connect] did, counted. *)
Definition serve_count (evs : list ConnEvent) : nat :=
  List.length (List.filter (fun e => match e with Serve _ => true | _ => false end)
                           evs).

Definition log_count (evs : list ConnEvent) : nat :=
  List.length (List.filter (fun e => match e with
                                     | LogDebug _ | LogDialError _ => true
                                     | _ => false
                                     end) evs).

End rain.

(** ** Outbound dialer: [Dialer.Run] *)

Module dialer.

Definition maxDial : nat := 40.

(** Where the goroutine of [Run] stands: at the outer [select], at the inner
    [select] (a slot of [limiter] has been taken for the address to come), or
    past one of the two [return]s. *)
Inductive Loc : Type :=
| OuterSelect
| InnerSelect
| ReturnedOuter
| ReturnedInner.

(** Modelled from the spec: package [internal/worker] is not among the
    sources.  Section 4.4 of the spec: [StartWithOnFinishHandler] spawns the
    worker and runs the on-finish callback once, when the worker's attempt
    has terminated, whatever its outcome.  A worker is therefore running,
    finished with its callback still to run, or done. *)
Inductive WorkerState : Type :=
| Running
| Finished
| Released.

(** [limiter] is the number of values held in the buffered channel
    [d.limiter] (capacity [maxDial]); [peerList] is what [d.peerList.Get()]
    has still to deliver; [stopC] tells whether the stop channel is closed. *)
Record State : Type := mkState {
  limiter : nat;
  peerList : list string;
  workers : list (string * WorkerState);
  stopC : bool;
  loc : Loc
}.

(** The scheduler's choices.  The first three are the ready cases of the
    [select] statements of [Run]; the others are moves of the environment and
    of the workers. *)
Inductive Label : Type :=
| SendLimiter
| RecvAddr
| RecvStop
| CloseStop
| AddPeer (addr : string)
| WorkerReturns (i : nat)
| OnFinish (i : nat).

Global Instance Label_eq_dec : EqDecision Label.
Proof. solve_decision. Defined.

Definition set_worker (i : nat) (ws : WorkerState) (s : State) : State :=
  mkState (limiter s) (peerList s)
          (alter (fun w => (fst w, ws)) i (workers s))
          (stopC s) (loc s).

Definition step (l : Label) (s : State) : option State :=
  match l with
  | SendLimiter =>
      (* case d.limiter <- struct{}{}: ready while the buffer is not full *)
      match loc s with
      | OuterSelect =>
          if (limiter s <? maxDial)%nat then
            Some (mkState (S (limiter s)) (peerList s) (workers s) (stopC s)
                          InnerSelect)
          else None
      | _ => None
      end
  | RecvAddr =>
      (* case addr := <-d.peerList.Get():
           h := handler.New(addr, ...)
           d.workers.StartWithOnFinishHandler(h, func() { <-d.limiter }) *)
      match loc s, peerList s with
      | InnerSelect, addr :: rest =>
          Some (mkState (limiter s) rest (workers s ++ [(addr, Running)])
                        (stopC s) OuterSelect)
      | _, _ => None
      end
  | RecvStop =>
      (* case <-stopC: d.workers.Stop(); return *)
      if stopC s then
        match loc s with
        | OuterSelect =>
            Some (mkState (limiter s) (peerList s) (workers s) true ReturnedOuter)
        | InnerSelect =>
            Some (mkState (limiter s) (peerList s) (workers s) true ReturnedInner)
        | _ => None
        end
      else None
  | CloseStop =>
      Some (mkState (limiter s) (peerList s) (workers s) true (loc s))
  | AddPeer addr =>
      Some (mkState (limiter s) (peerList s ++ [addr]) (workers s) (stopC s)
                    (loc s))
  | WorkerReturns i =>
      match workers s !! i with
      | Some (_, Running) => Some (set_worker i Finished s)
      | _ => None
      end
  | OnFinish i =>
      (* func() { <-d.limiter }: ready while the buffer is not empty *)
      match workers s !! i, limiter s with
      | Some (_, Finished), S n =>
          Some (set_worker i Released
                  (mkState n (peerList s) (workers s) (stopC s) (loc s)))
      | _, _ => None
      end
  end.

(** [exec tr s]: the state after the moves [tr], when each is possible in
    turn. *)
Fixpoint exec (tr : list Label) (s : State) : option State :=
  match tr with
  | [] => Some s
  | l :: rest =>
      match step l s with
      | Some s' => exec rest s'
      | None => None
      end
  end.

(** [New] followed by the call of [Run]: an empty [limiter], no worker. *)
Definition init (candidates : list string) : State :=
  mkState 0 candidates [] false OuterSelect.

Definition is_running (w : string * WorkerState) : bool :=
  match snd w with Running => true | _ => false end.

Definition holds_slot (w : string * WorkerState) : bool :=
  match snd w with Released => false | _ => true end.

(** Dial workers whose attempt is under way. *)
Definition running (s : State) : nat :=
  List.length (List.filter is_running (workers s)).

(** Workers whose on-finish callback has not run yet. *)
Definition unreleased (s : State) : nat :=
  List.length (List.filter holds_slot (workers s)).

(** The slot [Run] itself holds: the one taken at the outer [select] and not
    yet handed to a worker. *)
Definition held (l : Loc) : nat :=
  match l with
  | InnerSelect | ReturnedInner => 1
  | OuterSelect | ReturnedOuter => 0
  end.

Definition returned (l : Loc) : bool :=
  match l with
  | ReturnedOuter | ReturnedInner => true
  | _ => false
  end.

(** The number of times worker [i]'s callback took a value from [limiter]. *)
Definition releases (i : nat) (tr : list Label) : nat :=
  List.length (filter (fun l => l = OnFinish i) tr).

(** The number of values [Run] put into [limiter]. *)
Definition acquisitions (tr : list Label) : nat :=
  List.length (filter (fun l => l = SendLimiter) tr).

(** Whether worker [i]'s callback has run, as a number. *)
Definition released_count (s : State) (i : nat) : nat :=
  match workers s !! i with
  | Some (_, Released) => 1
  | _ => 0
  end.

(** The slots in [limiter] are those of the workers whose callback has not
    run, plus the one [Run] holds; and there are at most [maxDial]. *)
Definition balanced (s : State) : Prop :=
  (limiter s <= maxDial)%nat /\
  limiter s = (unreleased s + held (loc s))%nat.

(** The addresses the environment added to the peer list. *)
Definition added (tr : list Label) : list string :=
  omap (fun l => match l with AddPeer addr => Some addr | _ => None end) tr.

(** The addresses workers were started for, oldest first. *)
Definition dialed (s : State) : list string := map fst (workers s).

(** Whether the stop channel gets closed during [tr]. *)
Definition stop_requested (tr : list Label) : bool :=
  existsb (fun l => match l with CloseStop => true | _ => false end) tr.

End dialer.

(** ** Concrete inputs *)

Section FilePreparerInputs.

Import FilePreparer.

Definition all_ok : string -> Faults := fun _ => no_faults.
Definition mkdir_ok : string -> bool := fun _ => false.
Definition join_slash (parts : list string) : string := String.concat "/" parts.
Definition dir_of (path : string) : string := path.

Definition empty_disk : World := mkWorld ∅ [].
Definition disk_with (path : string) (sz : Z) : World :=
  mkWorld {[ path := sz ]} [].

Definition single (name : string) (length : Z) : Info :=
  mkInfo false name length [].

(** The disk once the image of 1000 bytes has been allocated. *)
Definition allocated : World :=
  mkWorld (<["dl/a.iso" := 1000]> ∅)
          [SysOpen "dl/a.iso"; SysStat "dl/a.iso";
           SysTruncate "dl/a.iso" 1000; SysSync "dl/a.iso"].

(** Every call succeeds except [Sync]. *)
Definition sync_breaks : string -> Faults :=
  fun _ => mkFaults false false false true.

(** A torrent of two files. *)
Definition album : Info :=
  mkInfo true "album" 0
         [mkFileDict 10 ["a.flac"]; mkFileDict 20 ["cd2"; "b.flac"]].

(** The disk once [album] has been prepared under ["dl"]. *)
Definition album_prepared : World :=
  mkWorld (<["dl/album/cd2/b.flac" := 20]> (<["dl/album/a.flac" := 10]> ∅))
          [SysMkdirAll "dl/album/a.flac"; SysOpen "dl/album/a.flac";
           SysStat "dl/album/a.flac"; SysTruncate "dl/album/a.flac" 10;
           SysSync "dl/album/a.flac";
           SysMkdirAll "dl/album/cd2/b.flac"; SysOpen "dl/album/cd2/b.flac";
           SysStat "dl/album/cd2/b.flac"; SysTruncate "dl/album/cd2/b.flac" 20;
           SysSync "dl/album/cd2/b.flac"].

(** [MkdirAll] fails for the second file of [album]. *)
Definition no_cd2 : string -> bool :=
  fun dir => bool_decide (dir = "dl/album/cd2/b.flac").

End FilePreparerInputs.

Section AcceptorInputs.

Import bitfield acceptor.

Definition served : Hash := replicate 20 171.
Definition served_sKey : Hash := replicate 20 17.
Definition local_id : PeerID := replicate 20 1.
Definition remote_id : PeerID := replicate 20 2.

(** A remote side that handshakes in plain framing for the served content
    and advertises bits 5 and 61. *)
Definition plain_hello : RemoteHello :=
  mkHello false [] served [4; 0; 0; 0; 0; 0; 0; 4] remote_id None.

Definition conn0 : Conn := mkConn "203.0.113.5:51413" plain_hello.

Definition h0 : Handler := mkHandler conn0 (New 16) local_id served_sKey served.

Definition nobody_else (ids : gset (list Z)) : gset (list Z) := ids.

(** A negotiator whose transport closes during every handshake. *)
Definition always_closed : Negotiator :=
  fun _ _ _ _ _ _ => AcceptErr ErrTransportClosed.

End AcceptorInputs.

Section TransferInputs.

Import bitfield rain.

Definition plain_config : Encryption := mkEncryption false false.

(** A transfer of two pieces, none of them verified yet. *)
Definition fresh_transfer : transfer :=
  mkTransfer plain_config (replicate 20 1) (replicate 20 171) (New 2) [[]; []].

(** The same transfer with both pieces verified. *)
Definition seeding_transfer : transfer :=
  mkTransfer plain_config (replicate 20 1) (replicate 20 171)
             (Set_ (Set_ (New 2) 0) 1) [[]; []].

Definition busy_hour : list Input :=
  [RecvAnnounce (mkResponse None 3 5 ["198.51.100.4:6881"]);
   RecvHave 0 "198.51.100.4:6881" true;
   PieceVerified 0;
   PieceVerified 1;
   RecvAnnounce (mkResponse (Some "tracker timeout") 0 0 []);
   RecvHave 1 "198.51.100.4:6881" false].

(** The address dialled is our own listening address. *)
Definition loopback (addr : string) : option Remote :=
  if bool_decide (addr = "192.0.2.1:6881") then
    Some (mkRemote (replicate 20 1) (replicate 8 0) (replicate 20 171) true)
  else None.

(** Two pieces, the last one short. *)
Definition two_pieces : list piece := [mkPiece 0 16384; mkPiece 1 1000].

(** A dialer that reaches a peer, and one that times out. *)
Definition reaches_peer : Dialer :=
  fun addr _ _ _ _ _ => ([TcpConnect addr], DialOk addr [0; 0; 0; 0; 0; 0; 0; 4]).

Definition times_out : Dialer :=
  fun addr _ _ _ _ _ => ([TcpConnect addr], DialErr ErrConnect).

(** The collaborators of [newTransfer]: a tracker that is set up without
    error, two pieces whatever the files, and a hash check that only the
    second piece passes. *)
Definition tracker_ok : string -> option string := fun _ => None.

Definition pieces_of (info : FilePreparer.Info)
    (files : list FilePreparer.Handle) : list piece := two_pieces.

Definition second_only (p : piece) : string + bool :=
  inr (bool_decide (index p = 1%nat)).

(** A hash check that cannot read the second piece. *)
Definition unreadable_second (p : piece) : string + bool :=
  if bool_decide (index p = 1%nat) then inl "read error" else inr true.

Definition image : Torrent :=
  mkTorrent "http://tracker.example/announce" (single "a.iso" 17384).

End TransferInputs.

Section DialerInputs.

Import dialer.

(** [n] times: take a slot, receive an address, start a worker. *)
Definition dial (n : nat) : list Label :=
  concat (replicate n [SendLimiter; RecvAddr]).

Definition candidates41 : list string := replicate 41 "10.0.0.7:6881".

(** Forty workers running, one candidate left, [Run] at the outer [select]. *)
Definition full_house : State :=
  mkState 40 ["10.0.0.7:6881"] (replicate 40 ("10.0.0.7:6881", Running))
          false OuterSelect.

(** One dial from start to finish, then stop at the outer [select]. *)
Definition one_dial : list Label :=
  [SendLimiter; RecvAddr; WorkerReturns 0; OnFinish 0; CloseStop; RecvStop].

Definition after_one_dial : State :=
  mkState 0 [] [("10.0.0.7:6881", Released)] true ReturnedOuter.

End DialerInputs.

(** ** Facts about the capability bitset *)

Section BitfieldFacts.

Import bitfield.

(** [And] is the bit-by-bit conjunction. *)
Lemma Test_And bf other i :
  Test (And bf other) i = Test bf i && Test other i.
Proof.
  unfold Test, And; cbn [b]. rewrite lookup_zip_with.
  generalize (i / 8)%nat (Z.of_nat (7 - i mod 8)). intros k n.
  destruct (b bf !! k) as [x|]; cbn; [|done].
  destruct (b other !! k) as [y|]; cbn.
  - apply Z.land_spec.
  - by rewrite andb_false_r.
Qed.

(** The reserved bytes [Run] advertises carry bit 61 and no other. *)
Lemma Test_fast_extension i :
  Test (Set_ (NewBytes (replicate 8 0) 64) 61) i = bool_decide (i = 61%nat).
Proof.
  destruct (decide (i < 64)%nat) as [Hlt|Hge].
  - do 64 (destruct i as [|i]; [reflexivity|]). lia.
  - rewrite bool_decide_eq_false_2 by lia.
    unfold Test. rewrite lookup_ge_None_2; [done|].
    cbn [b Set_ NewBytes]. rewrite length_alter, length_replicate.
    apply Nat.div_le_lower_bound; lia.
Qed.

Lemma length_filter_all {A} (P : A -> Prop) `{!forall x, Decision (P x)} (l : list A) :
  List.length (filter P l) = List.length l <-> Forall P l.
Proof.
  induction l as [|x l IH]; [by split|].
  rewrite filter_cons. pose proof (length_filter P l) as Hle.
  destruct (decide (P x)) as [Hx|Hx]; simpl.
  - split.
    + intros Hlen. constructor; [done|]. apply IH. lia.
    + intros Hall. apply Forall_cons in Hall as [_ Hall].
      apply IH in Hall. lia.
  - split; [lia|]. intros Hall. by apply Forall_cons in Hall as [? _].
Qed.

(** [All] answers true exactly when every bit is set. *)
Lemma All_spec bf :
  All bf = true <-> forall i, (i < length bf)%nat -> Test bf i = true.
Proof.
  unfold All, Count. rewrite bool_decide_eq_true.
  assert (Hlen : length bf = List.length (seq 0 (length bf)))
    by (by rewrite length_seq).
  set (l := seq 0 (length bf)) in *. rewrite Hlen.
  rewrite length_filter_all, Forall_forall. subst l.
  split.
  - intros H i Hi. apply H. apply elem_of_seq. lia.
  - intros H i Hi. apply H. apply elem_of_seq in Hi. lia.
Qed.

Lemma byte_high_bits x n : 0 <= x < 256 -> 8 <= n -> Z.testbit x n = false.
Proof.
  intros Hx Hn. rewrite <- (Z.mod_small x (2 ^ 8)) by lia.
  rewrite Z.testbit_mod_pow2 by lia.
  replace (n <? 8) with false by lia. done.
Qed.

(** Appending a byte commutes with [Z.land]. *)
Lemma land_append_byte a c x y :
  0 <= x < 256 -> 0 <= y < 256 ->
  Z.land (Z.lor (Z.shiftl a 8) x) (Z.lor (Z.shiftl c 8) y)
  = Z.lor (Z.shiftl (Z.land a c) 8) (Z.land x y).
Proof.
  intros Hx Hy. apply Z.bits_inj'. intros n Hn.
  rewrite !Z.land_spec, !Z.lor_spec, !Z.land_spec, !Z.shiftl_spec by lia.
  rewrite Z.land_spec.
  destruct (Z.lt_ge_cases n 8) as [Hlt|Hge].
  - rewrite !(Z.testbit_neg_r _ (n - 8)) by lia. done.
  - rewrite (byte_high_bits x n), (byte_high_bits y n) by lia.
    by rewrite !orb_false_r.
Qed.

End BitfieldFacts.

(** ** Facts about the inbound connection handler *)

Section AcceptorFacts.

Import bitfield acceptor.

Variable Accept : Negotiator.
Variable session : Exit.
Variable meanwhile : gset (list Z) -> gset (list Z).

(** [Run] always calls the negotiator with [encryptionForceIncoming] false
    and with the Fast Extension bit in the reserved bytes. *)
Lemma Run_accept_arguments h ids :
  exists rest,
    (Run Accept session meanwhile h ids).1.2
      = EvAccept false fastExtension (peerID h) :: rest.
Proof.
  unfold Run.
  change (b (Set_ (NewBytes (replicate 8 0) 64) 61)) with fastExtension.
  destruct (Accept _ _ _ _ _ _) as [err|encConn cipher pext pid]; [by eexists|].
  destruct (peerids.Add ids pid) as [ids' []]; by eexists.
Qed.

Lemma Run_handshake_failed h ids err :
  Accept (conn h) (getSKey h) false (checkInfoHash h) fastExtension (peerID h)
    = AcceptErr err ->
  Run Accept session meanwhile h ids
    = (ids, [EvAccept false fastExtension (peerID h); EvLogError err;
             EvConnClose], Returns).
Proof.
  intros Hacc. unfold Run.
  change (b (Set_ (NewBytes (replicate 8 0) 64) 61)) with fastExtension.
  by rewrite Hacc.
Qed.

Lemma Run_duplicate h ids encConn cipher peerExtensions pid :
  Accept (conn h) (getSKey h) false (checkInfoHash h) fastExtension (peerID h)
    = AcceptOk encConn cipher peerExtensions pid ->
  pid ∈ ids ->
  Run Accept session meanwhile h ids
    = (ids, [EvAccept false fastExtension (peerID h);
             EvLogInfo cipher peerExtensions (take 8 pid);
             EvAdd pid false; EvConnClose], Returns).
Proof.
  intros Hacc Hin. unfold Run.
  change (b (Set_ (NewBytes (replicate 8 0) 64) 61)) with fastExtension.
  rewrite Hacc. unfold peerids.Add. by rewrite bool_decide_eq_true_2.
Qed.

Lemma Run_session h ids encConn cipher peerExtensions pid :
  Accept (conn h) (getSKey h) false (checkInfoHash h) fastExtension (peerID h)
    = AcceptOk encConn cipher peerExtensions pid ->
  pid ∉ ids ->
  Run Accept session meanwhile h ids
    = (peerids.Remove (meanwhile ({[ pid ]} ∪ ids)) pid,
       [EvAccept false fastExtension (peerID h);
        EvLogInfo cipher peerExtensions (take 8 pid);
        EvAdd pid true;
        EvPeerNew encConn pid
          (And (NewBytes fastExtension 64) (NewBytes peerExtensions 64))
          (bitfield h);
        EvPeerRun;
        EvRemove pid],
       session).
Proof.
  intros Hacc Hin. unfold Run.
  change (b (Set_ (NewBytes (replicate 8 0) 64) 61)) with fastExtension.
  rewrite Hacc. unfold peerids.Add. by rewrite bool_decide_eq_false_2.
Qed.

(** C3: after a successful handshake, a peer identifier that is already
    registered makes the handler close the socket and return: no peer session
    is created or run, [Remove] is not called and the registry is as it was.
    A peer identifier that is not registered is added, the session runs, and
    [Remove] is called for it exactly once, after the session, whether the
    session returns or panics and whatever other handlers did to the registry
    meanwhile; the identifier is then no longer registered. *)
Theorem registered_identity_is_released h ids encConn cipher peerExtensions pid :
  Accept (conn h) (getSKey h) false (checkInfoHash h) fastExtension (peerID h)
    = AcceptOk encConn cipher peerExtensions pid ->
  let '(ids', evs, exit) := Run Accept session meanwhile h ids in
  (pid ∈ ids ->
     ids' = ids /\ exit = Returns /\
     evs = [EvAccept false fastExtension (peerID h);
            EvLogInfo cipher peerExtensions (take 8 pid);
            EvAdd pid false; EvConnClose] /\
     closes evs = 1%nat /\ session_calls evs = 0%nat /\ removals evs = []) /\
  (pid ∉ ids ->
     exit = session /\
     (exists extensions,
        evs = [EvAccept false fastExtension (peerID h);
               EvLogInfo cipher peerExtensions (take 8 pid);
               EvAdd pid true;
               EvPeerNew encConn pid extensions (bitfield h);
               EvPeerRun;
               EvRemove pid]) /\
     removals evs = [pid] /\
     ids' = peerids.Remove (meanwhile ({[ pid ]} ∪ ids)) pid /\
     pid ∉ ids').
Proof.
  intros Hacc. destruct (decide (pid ∈ ids)) as [Hin|Hnotin].
  - rewrite (Run_duplicate h ids _ _ _ _ Hacc Hin).
    split; [|done]. intros _. by split_and!.
  - rewrite (Run_session h ids _ _ _ _ Hacc Hnotin).
    split; [done|]. intros _. split_and!; try done.
    + by eexists.
    + unfold peerids.Remove. intros Hin.
      apply elem_of_difference in Hin as [_ Hne].
      apply Hne. by apply elem_of_singleton.
Qed.

Lemma uint64_of_land_from a c acc1 acc2 :
  List.length a = List.length c -> Forall is_byte a -> Forall is_byte c ->
  fold_left (fun acc byte => Z.lor (Z.shiftl acc 8) byte)
            (zip_with Z.land a c) (Z.land acc1 acc2)
  = Z.land (fold_left (fun acc byte => Z.lor (Z.shiftl acc 8) byte) a acc1)
           (fold_left (fun acc byte => Z.lor (Z.shiftl acc 8) byte) c acc2).
Proof.
  revert c acc1 acc2.
  induction a as [|x a IH]; intros [|y c] acc1 acc2 Hlen Ha Hc;
    try done.
  apply Forall_cons in Ha as [Hx Ha]. apply Forall_cons in Hc as [Hy Hc].
  simpl. rewrite <- (land_append_byte acc1 acc2 x y Hx Hy).
  apply IH; [simpl in Hlen; lia | done | done].
Qed.

(** Read as 64-bit numbers, the byte-wise AND of two reserved fields is the
    [Z.land] of the two numbers. *)
Lemma uint64_of_land a c :
  List.length a = List.length c -> Forall is_byte a -> Forall is_byte c ->
  uint64_of (zip_with Z.land a c) = Z.land (uint64_of a) (uint64_of c).
Proof.
  intros Hlen Ha Hc. unfold uint64_of.
  by rewrite <- (uint64_of_land_from a c 0 0 Hlen Ha Hc).
Qed.

(** C4: the extension mask handed to the peer session is the bitwise AND of
    the mask this side sent (the reserved bytes given to the negotiator) and
    the mask the remote side sent: byte by byte, bit by bit, and as 64-bit
    numbers; it is never the union.  Since this side advertises bit 61 only,
    the effective mask has bit 61 exactly when the remote side advertises it,
    and no other bit. *)
Theorem effective_extensions_are_the_intersection
    h ids encConn cipher peerExtensions pid :
  Accept (conn h) (getSKey h) false (checkInfoHash h) fastExtension (peerID h)
    = AcceptOk encConn cipher peerExtensions pid ->
  pid ∉ ids ->
  exists ours extensions,
    (Run Accept session meanwhile h ids).1.2
      = [EvAccept false ours (peerID h);
         EvLogInfo cipher peerExtensions (take 8 pid);
         EvAdd pid true;
         EvPeerNew encConn pid extensions (bitfield h);
         EvPeerRun;
         EvRemove pid] /\
    b extensions = zip_with Z.land ours peerExtensions /\
    (forall i, Test extensions i
               = Test (NewBytes ours 64) i && Test (NewBytes peerExtensions 64) i) /\
    (forall i, Test extensions i
               = bool_decide (i = 61%nat) && Test (NewBytes peerExtensions 64) i) /\
    (List.length peerExtensions = 8%nat -> Forall is_byte peerExtensions ->
     uint64_of (b extensions)
       = Z.land (uint64_of ours) (uint64_of peerExtensions)).
Proof.
  intros Hacc Hnotin.
  exists fastExtension,
    (And (NewBytes fastExtension 64) (NewBytes peerExtensions 64)).
  rewrite (Run_session h ids _ _ _ _ Hacc Hnotin). split_and!.
  - done.
  - done.
  - intros i. apply Test_And.
  - intros i. rewrite Test_And. f_equal. apply Test_fast_extension.
  - intros Hlen Hbytes. apply uint64_of_land; [by rewrite Hlen | | done].
    unfold fastExtension, is_byte. repeat constructor; lia.
Qed.

End AcceptorFacts.

(** *** The inbound handler on concrete connections *)

Section AcceptorExamples.

Import bitfield acceptor.

(** A second connection from a peer that is already registered is closed;
    a first one is served and deregistered, here with a session that
    panics. *)
Lemma registered_identity_is_released_witness :
  Run btconn_Accept Panics nobody_else h0 {[ remote_id ]}
    = ({[ remote_id ]},
       [EvAccept false fastExtension local_id;
        EvLogInfo PlainText [4; 0; 0; 0; 0; 0; 0; 4] (take 8 remote_id);
        EvAdd remote_id false; EvConnClose],
       Returns) /\
  removals (Run btconn_Accept Panics nobody_else h0 ∅).1.2 = [remote_id] /\
  (Run btconn_Accept Panics nobody_else h0 ∅).2 = Panics /\
  remote_id ∉ (Run btconn_Accept Panics nobody_else h0 ∅).1.1.
Proof.
  split.
  - pose proof (registered_identity_is_released btconn_Accept Panics
                  nobody_else h0 {[ remote_id ]} _ _ _ _ eq_refl) as H.
    destruct (Run btconn_Accept Panics nobody_else h0 {[ remote_id ]})
      as [[ids' evs] exit].
    destruct H as [Hdup _].
    destruct Hdup as (-> & -> & -> & _); [by apply elem_of_singleton|].
    reflexivity.
  - pose proof (registered_identity_is_released btconn_Accept Panics
                  nobody_else h0 ∅ _ _ _ _ eq_refl) as H.
    destruct (Run btconn_Accept Panics nobody_else h0 ∅)
      as [[ids' evs] exit].
    destruct H as [_ Hnew].
    destruct Hnew as (-> & _ & Hrem & _ & Hgone); [apply not_elem_of_empty|].
    by split_and!.
Defined.

(** The example of the spec: this side advertises bit 61, the remote side
    bits 61 and 5; the session gets bit 61 and not bit 5. *)
Lemma effective_extensions_are_the_intersection_witness :
  exists ours extensions,
    (Run btconn_Accept Returns nobody_else h0 ∅).1.2
      = [EvAccept false ours (peerID h0);
         EvLogInfo PlainText [4; 0; 0; 0; 0; 0; 0; 4] (take 8 remote_id);
         EvAdd remote_id true;
         EvPeerNew (mkSecured conn0 PlainText) remote_id extensions
                   (bitfield h0);
         EvPeerRun;
         EvRemove remote_id] /\
    b extensions = zip_with Z.land ours [4; 0; 0; 0; 0; 0; 0; 4] /\
    (forall i, Test extensions i
               = Test (NewBytes ours 64) i
                 && Test (NewBytes [4; 0; 0; 0; 0; 0; 0; 4] 64) i) /\
    (forall i, Test extensions i
               = bool_decide (i = 61%nat)
                 && Test (NewBytes [4; 0; 0; 0; 0; 0; 0; 4] 64) i) /\
    (List.length [4; 0; 0; 0; 0; 0; 0; 4] = 8%nat ->
     Forall is_byte [4; 0; 0; 0; 0; 0; 0; 4] ->
     uint64_of (b extensions)
       = Z.land (uint64_of ours) (uint64_of [4; 0; 0; 0; 0; 0; 0; 4])).
Proof.
  apply (effective_extensions_are_the_intersection btconn_Accept Returns
           nobody_else h0 ∅ (mkSecured conn0 PlainText) PlainText
           [4; 0; 0; 0; 0; 0; 0; 4] remote_id).
  - reflexivity.
  - apply not_elem_of_empty.
Defined.

Lemma intersection_not_union :
  And (Set_ (New 64) 61) (Set_ (Set_ (New 64) 61) 5) = Set_ (New 64) 61 /\
  b (Set_ (Set_ (New 64) 61) 5) = [4; 0; 0; 0; 0; 0; 0; 4] /\
  Test (And (Set_ (New 64) 61) (Set_ (Set_ (New 64) 61) 5)) 61 = true /\
  Test (And (Set_ (New 64) 61) (Set_ (Set_ (New 64) 61) 5)) 5 = false.
Proof. by split_and!. Qed.

(** Whatever the handler's fields, a remote side that uses plain framing for
    the served content is admitted: there is no field of [Handler] from
    which a forced-encryption policy could come. *)
Lemma plain_framing_is_admitted session meanwhile h ids :
  hello_encrypted (remote (conn h)) = false ->
  hello_fault (remote (conn h)) = None ->
  hello_infoHash (remote (conn h)) = infoHash h ->
  hello_peerID (remote (conn h)) ∉ ids ->
  session_calls (Run btconn_Accept session meanwhile h ids).1.2 = 2%nat /\
  closes (Run btconn_Accept session meanwhile h ids).1.2 = 0%nat.
Proof.
  intros Hplain Hfault Hhash Hnew.
  rewrite (Run_session btconn_Accept session meanwhile h ids
             (mkSecured (conn h) PlainText) PlainText
             (hello_extensions (remote (conn h)))
             (hello_peerID (remote (conn h)))); [done| |done].
  unfold btconn_Accept. rewrite Hfault, Hplain. unfold checkInfoHash.
  by rewrite bool_decide_eq_true_2.
Qed.

(** C5 at the failing input.  The operator wants incoming encryption forced;
    the remote side handshakes in plain framing for the served content.  The
    negotiator would refuse it if it were given the flag, but [Run] hands it
    [false]: the peer is admitted, a session is run, the socket is not
    closed. *)
Theorem forced_incoming_encryption_is_not_applied :
  btconn_Accept (conn h0) (getSKey h0) true (checkInfoHash h0) fastExtension
                (peerID h0)
    = AcceptErr ErrEncryptionRequired /\
  (Run btconn_Accept Returns nobody_else h0 ∅).1.2
    = [EvAccept false fastExtension local_id;
       EvLogInfo PlainText [4; 0; 0; 0; 0; 0; 0; 4] (take 8 remote_id);
       EvAdd remote_id true;
       EvPeerNew (mkSecured conn0 PlainText) remote_id
                 (mkBitfield [0; 0; 0; 0; 0; 0; 0; 4] 64) (New 16);
       EvPeerRun;
       EvRemove remote_id] /\
  closes (Run btconn_Accept Returns nobody_else h0 ∅).1.2 = 0%nat.
Proof.
  split; [reflexivity|].
  rewrite (Run_session btconn_Accept Returns nobody_else h0 ∅
             (mkSecured conn0 PlainText) PlainText
             [4; 0; 0; 0; 0; 0; 0; 4] remote_id eq_refl);
    [|apply not_elem_of_empty].
  by split.
Qed.

End AcceptorExamples.

(** ** The inbound handler on every path *)

Section AcceptorPaths.

Import bitfield acceptor.

Variable Accept : Negotiator.
Variable session : Exit.
Variable meanwhile : gset (list Z) -> gset (list Z).

(** X11: on every path through [Run], whatever the negotiator answers:
    either the socket is closed once and no peer session is created or run,
    or a session is created and run and the socket is not closed by [Run];
    and the identifiers [Run] removes from the registry are exactly those it
    added itself, so it never removes an entry of another connection. *)
Theorem Run_closes_or_serves h ids :
  let evs := (Run Accept session meanwhile h ids).1.2 in
  removals evs = registered evs /\
  ((closes evs = 1%nat /\ session_calls evs = 0%nat /\ removals evs = []) \/
   (closes evs = 0%nat /\ session_calls evs = 2%nat /\
    exists id, removals evs = [id])).
Proof.
  cbv zeta. unfold Run.
  destruct (Accept _ _ _ _ _ _) as [err|encConn cipher pext pid].
  - split; [done|]. by left.
  - destruct (peerids.Add ids pid) as [ids' []]; simpl.
    + split; [done|]. right. split_and!; [done|done|]. by exists pid.
    + split; [done|]. by left.
Qed.

(** When the handshake fails, [Run] logs the error, closes the socket
    and returns: it does not call [Add], the registry is as it was, and it
    returns normally whatever a session would have done. *)
Theorem Run_handshake_failure h ids err :
  Accept (conn h) (getSKey h) false (checkInfoHash h) fastExtension (peerID h)
    = AcceptErr err ->
  Run Accept session meanwhile h ids
    = (ids, [EvAccept false fastExtension (peerID h); EvLogError err;
             EvConnClose], Returns) /\
  registered (Run Accept session meanwhile h ids).1.2 = [].
Proof.
  intros Hacc. rewrite (Run_handshake_failed Accept session meanwhile h ids err Hacc).
  done.
Qed.

(** X12: when no other handler touches the registry while the session
    runs, [Run] hands the registry back exactly as it found it, on every
    path: after a failed handshake, after a duplicate, and after a session
    however it ended. *)
Theorem Run_leaves_registry_as_found h ids :
  (Run Accept session undisturbed h ids).1.1 = ids.
Proof.
  unfold Run.
  destruct (Accept _ _ _ _ _ _) as [err|encConn cipher pext pid]; [done|].
  unfold peerids.Add. case_bool_decide as Hin; simpl; [done|].
  unfold peerids.Remove, undisturbed.
  apply set_eq. intros x. rewrite elem_of_difference, elem_of_union,
    !elem_of_singleton.
  split.
  - intros [[->|Hx] Hne]; [by destruct Hne | done].
  - intros Hx. split; [by right|]. intros ->. by apply Hin.
Qed.

(** X13: the two callbacks [Run] gives to the negotiator agree: the content
    identifier [getSKey] resolves a secret-key hash to is always one that
    [checkInfoHash] accepts, and [getSKey] answers [nil] exactly for the
    hashes other than the handler's own. *)
Theorem getSKey_agrees_with_checkInfoHash h (k : Hash) :
  (forall ih, getSKey h k = Some ih ->
              k = sKeyHash h /\ ih = infoHash h /\ checkInfoHash h ih = true) /\
  (getSKey h k = None <-> k <> sKeyHash h).
Proof.
  unfold getSKey, checkInfoHash. case_bool_decide as Hk.
  - split.
    + intros ih [= <-]. split_and!; [done|done|]. by apply bool_decide_eq_true_2.
    + split; [done|]. intros Hne. by destruct Hne.
  - split; [done|]. done.
Qed.

End AcceptorPaths.

Section AcceptorPathsExamples.

Import bitfield acceptor.

Lemma Run_handshake_failure_witness :
  Run always_closed Panics nobody_else h0 {[ remote_id ]}
    = ({[ remote_id ]},
       [EvAccept false fastExtension (peerID h0);
        EvLogError ErrTransportClosed; EvConnClose], Returns) /\
  registered (Run always_closed Panics nobody_else h0 {[ remote_id ]}).1.2 = [].
Proof.
  apply (Run_handshake_failure always_closed Panics nobody_else h0
           {[ remote_id ]} ErrTransportClosed).
  reflexivity.
Defined.

End AcceptorPathsExamples.

(** ** Facts about the transfer coordinator *)

Section TransferFacts.

Import bitfield rain.

(** No turn of the run loop calls [tracker.AnnouncePeriodically]. *)
Lemma turn_announces_nothing t i : announces (turn t i).2 = [].
Proof.
  destruct i as [resp|piece peer ready|index]; simpl.
  - by destruct (Error resp).
  - by destruct ready.
  - done.
Qed.

Lemma loop_announces_nothing t inputs : announces (loop t inputs) = [].
Proof.
  revert t. induction inputs as [|i rest IH]; intros t; [done|].
  simpl. pose proof (turn_announces_nothing t i) as Hturn.
  destruct (turn t i) as [t' acts]. unfold announces in *.
  rewrite omap_app. simpl in Hturn. rewrite Hturn. apply IH.
Qed.

(** C6: however long the run loop has been running and whatever it has
    received, [tracker.AnnouncePeriodically] has been called exactly once,
    before the loop, with [Completed] if the bitfield had every bit set when
    [Run] started and with [Started] otherwise; bits set later do not change
    that. *)
Theorem initial_announce_event_chosen_once t inputs :
  announces (Run t inputs)
    = [if All (bitField t) then Completed else Started] /\
  (All (bitField t) = true <->
   forall i, (i < length (bitField t))%nat -> Test (bitField t) i = true).
Proof.
  split; [|apply All_spec].
  unfold Run, announces. rewrite omap_app.
  fold (announces (loop t inputs)). rewrite loop_announces_nothing.
  unfold start. simpl. by destruct (All (bitField t)).
Qed.

(** What [connect] does with each result of the dialer it is given. *)
Lemma connect_own_connection Dial t addr evs :
  Dial addr (negb (DisableOutgoing (config t))) (ForceOutgoing (config t))
       (replicate 8 0) (infoHash t) (peerID t)
    = (evs, DialErr ErrOwnConnection) ->
  connect Dial t addr = evs ++ [LogDebug ErrOwnConnection].
Proof. intros H. unfold connect. by rewrite H. Qed.

(** C7: a dial that reaches a peer whose identifier is the local one closes
    the connection and returns; [connect] writes the condition to the debug
    log only: no error is logged, no peer is created and none is served. *)
Theorem self_connection_is_closed_quietly net t addr r :
  net addr = Some r ->
  remote_infoHash r = infoHash t ->
  ForceOutgoing (config t)
    && negb (negb (DisableOutgoing (config t)) && remote_encrypts r) = false ->
  remote_peerID r = peerID t ->
  connect (connection_Dial net) t addr
    = [TcpConnect addr; ConnClose addr; LogDebug ErrOwnConnection].
Proof.
  intros Hnet Hhash Henc Hself.
  rewrite (connect_own_connection _ t addr [TcpConnect addr; ConnClose addr]);
    [done|].
  unfold connection_Dial. rewrite Hnet, Henc.
  rewrite bool_decide_eq_true_2 by done. simpl.
  by rewrite bool_decide_eq_true_2.
Qed.

End TransferFacts.

(** *** The transfer coordinator on concrete inputs *)

Section TransferExamples.

Import bitfield rain.

(** The bitfield fills up while the loop runs; the announce event stays the
    one chosen at start. *)
Lemma announce_event_not_revisited :
  All (bitField fresh_transfer) = false /\
  All (Set_ (Set_ (bitField fresh_transfer) 0) 1) = true /\
  Run fresh_transfer busy_hour
    = [Register (replicate 20 171);
       AnnouncePeriodically Started;
       StartDownloader;
       StartUploader;
       LogAnnounce 3 5;
       SendPeers ["198.51.100.4:6881"];
       AppendPeer 0 "198.51.100.4:6881";
       NotifyDownloader;
       LogError "tracker timeout";
       AppendPeer 1 "198.51.100.4:6881"] /\
  announces (Run seeding_transfer busy_hour) = [Completed].
Proof. by split_and!. Qed.

Lemma self_connection_is_closed_quietly_witness :
  connect (connection_Dial loopback) fresh_transfer "192.0.2.1:6881"
    = [TcpConnect "192.0.2.1:6881"; ConnClose "192.0.2.1:6881";
       LogDebug ErrOwnConnection].
Proof.
  apply (self_connection_is_closed_quietly loopback fresh_transfer
           "192.0.2.1:6881"
           (mkRemote (replicate 20 1) (replicate 8 0) (replicate 20 171) true));
    reflexivity.
Defined.

(** Any other failure of the dial is logged as an error. *)
Lemma other_dial_errors_are_logged :
  connect (connection_Dial loopback) fresh_transfer "192.0.2.9:6881"
    = [TcpConnect "192.0.2.9:6881"; LogDialError ErrConnect].
Proof. reflexivity. Qed.

End TransferExamples.

(** ** The run loop of the transfer coordinator *)

Section TransferLoop.

Import bitfield rain.

Lemma loop_app t inputs1 inputs2 :
  loop t (inputs1 ++ inputs2)
  = loop t inputs1 ++ loop (after t inputs1) inputs2.
Proof.
  revert t. induction inputs1 as [|i rest IH]; intros t; [done|].
  simpl. destruct (turn t i) as [t' acts] eqn:Hturn. simpl.
  by rewrite IH, app_assoc.
Qed.

(** X19: the run loop forwards to the downloader exactly the peer lists of
    the announces that succeeded, in the order they arrived, and logs exactly
    the errors of those that failed: a failed announce forwards nothing and
    does not stop the loop. *)
Theorem announces_forwarded_or_logged t inputs :
  sent_peers (Run t inputs) = announced_peers inputs /\
  logged_errors (Run t inputs) = announce_errors inputs.
Proof.
  unfold Run, sent_peers, logged_errors. rewrite !omap_app.
  assert (Hstart : forall t,
            omap (fun a => match a with SendPeers ps => Some ps | _ => None end)
                 (start t) = [] /\
            omap (fun a => match a with LogError e => Some e | _ => None end)
                 (start t) = []).
  { intros t0. unfold start. simpl. by destruct (All (bitField t0)). }
  destruct (Hstart t) as [-> ->]. simpl.
  revert t. induction inputs as [|i rest IH]; intros t; [done|].
  simpl. destruct (turn t i) as [t' acts] eqn:Hturn.
  rewrite !omap_app. destruct (IH t') as [-> ->].
  unfold announced_peers, announce_errors. simpl.
  destruct i as [resp|p peer ready|idx]; simpl in Hturn.
  - destruct (Error resp) eqn:He; injection Hturn as <- <-; simpl;
      rewrite ?He; done.
  - injection Hturn as <- <-. by destruct ready.
  - by injection Hturn as <- <-.
Qed.

Lemma after_pieces t inputs p :
  pieces (after t inputs) !! p
  = (fun old => old ++ reporters p inputs) <$> pieces t !! p.
Proof.
  revert t. induction inputs as [|i rest IH]; intros t.
  - simpl. destruct (pieces t !! p); simpl; [|done]. by rewrite app_nil_r.
  - simpl. rewrite IH. destruct i as [resp|q peer ready|idx]; simpl.
    + by destruct (Error resp).
    + unfold reporters. simpl. destruct (decide (q = p)) as [->|Hne].
      * rewrite list_lookup_alter_eq. destruct (pieces t !! p); simpl; [|done].
        by rewrite <- app_assoc.
      * by rewrite list_lookup_alter_ne.
    + done.
Qed.

Lemma loop_wakeups t inputs :
  wakeups (loop t inputs) = ready_reports inputs.
Proof.
  revert t. induction inputs as [|i rest IH]; intros t; [done|].
  simpl. destruct (turn t i) as [t' acts] eqn:Hturn.
  unfold wakeups, ready_reports in *.
  rewrite List.filter_app, List.length_app, IH. simpl.
  destruct i as [resp|p peer ready|idx]; simpl in Hturn.
  - by destruct (Error resp); injection Hturn as <- <-.
  - injection Hturn as <- <-. by destruct ready.
  - by injection Hturn as <- <-.
Qed.

(** X20: every "peer has piece" report is recorded: after any inputs, the
    peer list of each piece is what it was followed by the peers that
    reported that piece, in order of arrival, and the other pieces are
    untouched by a report.  The downloader is woken once per report that
    found it ready and never otherwise: a report that finds it busy is
    recorded but its wake-up is dropped. *)
Theorem reports_recorded_wakeups_dropped t inputs :
  (forall p, pieces (after t inputs) !! p
             = (fun old => old ++ reporters p inputs) <$> pieces t !! p) /\
  List.length (pieces (after t inputs)) = List.length (pieces t) /\
  wakeups (Run t inputs) = ready_reports inputs.
Proof.
  split_and!.
  - intros p. apply after_pieces.
  - revert t. induction inputs as [|i rest IH]; intros t; [done|].
    simpl. rewrite IH. destruct i as [resp|q peer ready|idx]; simpl.
    + by destruct (Error resp).
    + by rewrite length_alter.
    + done.
  - unfold Run, wakeups. rewrite List.filter_app, List.length_app.
    fold (wakeups (loop t inputs)). rewrite loop_wakeups.
    unfold start. simpl. by destruct (All (bitField t)).
Qed.

(** The run loop writes nothing but the peer lists of the pieces: the
    configuration, the peer identifier and the content identifier of the
    transfer are the same after any inputs, and so is the bitfield as long
    as no other goroutine sets a bit. *)
Theorem run_loop_only_records_peers t inputs :
  config (after t inputs) = config t /\
  peerID (after t inputs) = peerID t /\
  infoHash (after t inputs) = infoHash t /\
  (Forall (fun i => match i with PieceVerified _ => False | _ => True end)
          inputs ->
   bitField (after t inputs) = bitField t).
Proof.
  revert t. induction inputs as [|i rest IH]; intros t; [done|].
  simpl. destruct (IH (turn t i).1) as (Hc & Hp & Hi & Hb).
  destruct i as [resp|q peer ready|idx]; simpl in *.
  - destruct (Error resp); simpl in *; split_and!; try done;
      intros Hall; apply Forall_cons in Hall as [_ Hall]; by apply Hb.
  - split_and!; try done.
    intros Hall; apply Forall_cons in Hall as [_ Hall]. by apply Hb.
  - split_and!; try done.
    intros Hall; by apply Forall_cons in Hall as [[] _].
Qed.

End TransferLoop.

(** ** [Downloaded] and [Left] *)

Section TransferAccounting.

Import bitfield rain.

Lemma wrap64_range z : - 2 ^ 63 <= wrap64 z < 2 ^ 63.
Proof.
  unfold wrap64. pose proof (Z.mod_pos_bound (z + 2 ^ 63) (2 ^ 64)). lia.
Qed.

Lemma wrap64_small z : - 2 ^ 63 <= z < 2 ^ 63 -> wrap64 z = z.
Proof. intros Hz. unfold wrap64. rewrite Z.mod_small; lia. Qed.

Lemma wrap64_add_l a c : wrap64 (wrap64 a + c) = wrap64 (a + c).
Proof.
  unfold wrap64.
  replace ((a + 2 ^ 63) mod 2 ^ 64 - 2 ^ 63 + c + 2 ^ 63)
    with ((a + 2 ^ 63) mod 2 ^ 64 + c) by lia.
  rewrite Zplus_mod_idemp_l. f_equal. f_equal. lia.
Qed.

Lemma wrap64_add_r a c : wrap64 (a + wrap64 c) = wrap64 (a + c).
Proof. by rewrite Z.add_comm, wrap64_add_l, Z.add_comm. Qed.

Lemma sumZ_app l1 l2 : sumZ (l1 ++ l2) = sumZ l1 + sumZ l2.
Proof. induction l1 as [|x l1 IH]; simpl; [done|]. rewrite IH. lia. Qed.

Lemma foldl_add_piece_None bf ps l :
  foldl (add_piece bf ps) None l = None.
Proof. by induction l. Qed.

Lemma foldl_add_piece_Some bf ps l sum :
  wrap64 sum = sum ->
  Forall (fun i => Test bf i = true -> is_Some (ps !! i)) l ->
  foldl (add_piece bf ps) (Some sum) l
  = Some (wrap64 (sum + sumZ (owned_in bf ps l))).
Proof.
  revert sum. induction l as [|i l IH]; intros sum Hsum Hall.
  - simpl. by rewrite Z.add_0_r, Hsum.
  - apply Forall_cons in Hall as [Hi Hall].
    simpl. unfold owned_in. simpl. fold (owned_in bf ps l).
    destruct (Test bf i) eqn:Ht.
    + destruct (Hi eq_refl) as [p Hp]. rewrite Hp. simpl.
      rewrite IH; [|by rewrite wrap64_small by apply wrap64_range|done].
      rewrite wrap64_add_l. f_equal. f_equal. lia.
    + by rewrite IH.
Qed.

Lemma foldl_add_piece_panics bf ps l acc i :
  i ∈ l -> Test bf i = true -> ps !! i = None ->
  foldl (add_piece bf ps) acc l = None.
Proof.
  revert acc. induction l as [|j l IH]; intros acc Hin Ht Hp.
  - by apply elem_of_nil in Hin.
  - simpl. apply elem_of_cons in Hin as [->|Hin].
    + destruct acc as [sum|]; simpl; [|apply foldl_add_piece_None].
      rewrite Ht, Hp. apply foldl_add_piece_None.
    + by apply IH.
Qed.

(** X21: [Downloaded] panics exactly when some set bit has no piece to go
    with it; in particular it does not when the bitfield is no longer than
    the piece list, which is how [newTransfer] builds them. *)
Theorem Downloaded_panics_iff bf ps :
  (Downloaded bf ps = None <->
   exists i, (i < length bf)%nat /\ Test bf i = true /\
             (List.length ps <= i)%nat) /\
  ((length bf <= List.length ps)%nat -> is_Some (Downloaded bf ps)).
Proof.
  assert (Hiff : Downloaded bf ps = None <->
     exists i, (i < length bf)%nat /\ Test bf i = true /\
               (List.length ps <= i)%nat).
  { unfold Downloaded.
    destruct (decide (Forall (fun i => Test bf i = true -> is_Some (ps !! i))
                             (seq 0 (length bf)))) as [Hall|Hnot].
    - rewrite foldl_add_piece_Some; [|by apply wrap64_small|done].
      split; [done|]. intros (i & Hi & Ht & Hlen).
      rewrite Forall_forall in Hall.
      destruct (Hall i) as [p Hp]; [apply elem_of_seq; lia | done |].
      apply lookup_lt_Some in Hp. lia.
    - apply not_Forall_Exists in Hnot; [|intros i; apply _].
      apply Exists_exists in Hnot as (i & Hi & Hnot).
      assert (Ht : Test bf i = true).
      { destruct (Test bf i) eqn:E; [done|]. exfalso. apply Hnot.
        intros Hc. rewrite E in Hc. discriminate. }
      assert (Hp : ps !! i = None).
      { destruct (ps !! i) eqn:Hp; [|done]. exfalso. apply Hnot. eauto. }
      rewrite (foldl_add_piece_panics bf ps _ _ i Hi Ht Hp).
      split; [|done]. intros _. exists i.
      apply elem_of_seq in Hi. split_and!; [lia|done|].
      by apply lookup_ge_None. }
  split; [done|]. intros Hlen.
  destruct (Downloaded bf ps) eqn:Hd; [eauto|].
  destruct Hiff as [Hiff _]. destruct (Hiff eq_refl) as (i & Hi & _ & Hge).
  lia.
Qed.

(** X22: [Downloaded] is the sum of the lengths of the pieces whose bit is
    set, in 64-bit arithmetic; [Left] is the total length minus it; so
    [Downloaded] plus [Left] is the total length again, in 64-bit
    arithmetic, whatever the bitfield. *)
Theorem Downloaded_plus_Left bf ps TotalLength d :
  Downloaded bf ps = Some d ->
  d = wrap64 (sumZ (owned bf ps)) /\
  exists l, Left TotalLength bf ps = Some l /\
            wrap64 (d + l) = wrap64 TotalLength.
Proof.
  intros Hd. split.
  - unfold Downloaded in Hd.
    destruct (decide (Forall (fun i => Test bf i = true -> is_Some (ps !! i))
                             (seq 0 (length bf)))) as [Hall|Hnot].
    + rewrite foldl_add_piece_Some in Hd; [|by apply wrap64_small|done].
      by injection Hd as <-.
    + apply not_Forall_Exists in Hnot; [|intros i; apply _].
      apply Exists_exists in Hnot as (i & Hi & Hnot).
      assert (Ht : Test bf i = true).
      { destruct (Test bf i) eqn:E; [done|]. exfalso. apply Hnot.
        intros Hc. rewrite E in Hc. discriminate. }
      assert (Hp : ps !! i = None).
      { destruct (ps !! i) eqn:Hp; [|done]. exfalso. apply Hnot. eauto. }
      by rewrite (foldl_add_piece_panics bf ps _ _ i Hi Ht Hp) in Hd.
  - unfold Left. rewrite Hd. eexists. split; [done|].
    rewrite wrap64_add_r. f_equal. lia.
Qed.

Lemma Test_New n i : Test (New n) i = false.
Proof.
  unfold Test, New. cbn [b].
  destruct (replicate ((n + 7) / 8)%nat 0 !! (i / 8)%nat) as [x|] eqn:Hx;
    [|done].
  apply lookup_replicate in Hx as [-> _]. apply Z.testbit_0_l.
Qed.

Lemma Downloaded_of_New n ps TotalLength :
  Downloaded (New n) ps = Some 0 /\
  Left TotalLength (New n) ps = Some (wrap64 TotalLength).
Proof.
  assert (Hd : Downloaded (New n) ps = Some 0).
  { unfold Downloaded. rewrite foldl_add_piece_Some.
    - f_equal. assert (Ho : forall l, owned_in (New n) ps l = []).
      { intros l. induction l as [|i l IH]; [done|].
        unfold owned_in in *. simpl. by rewrite Test_New. }
      by rewrite Ho.
    - by apply wrap64_small.
    - apply Forall_forall. intros i _. by rewrite Test_New. }
  split; [done|]. unfold Left. rewrite Hd. by rewrite Z.sub_0_r.
Qed.

(** X23: for a bitfield as [bitfield.New] makes it, with no bit set,
    [Downloaded] is 0 and [Left] is the total length, whatever the pieces
    are, also when there are none. *)
Theorem nothing_downloaded_at_first n ps TotalLength :
  Downloaded (New n) ps = Some 0 /\
  Left TotalLength (New n) ps = Some (wrap64 TotalLength).
Proof.
  exact (Downloaded_of_New n ps TotalLength).
Qed.

Lemma sumZ_nonneg (l : list Z) : Forall (fun x => 0 <= x) l -> 0 <= sumZ l.
Proof.
  induction 1 as [|x l Hx _ IH]; simpl; lia.
Qed.

Lemma owned_in_prefix bf ps n :
  (n <= List.length ps)%nat ->
  Forall (fun p => 0 <= p_length p) ps ->
  0 <= sumZ (owned_in bf ps (seq 0 n))
    <= sumZ (map p_length (take n ps)) /\
  ((forall i, (i < n)%nat -> Test bf i = true) ->
   owned_in bf ps (seq 0 n) = map p_length (take n ps)).
Proof.
  intros Hn Hpos. induction n as [|n IH].
  - simpl. split; [lia|done].
  - destruct IH as [Hsum Hall]; [lia|].
    destruct (lookup_lt_is_Some_2 ps n) as [p Hp]; [lia|].
    rewrite seq_S, (take_S_r ps n p Hp). simpl.
    unfold owned_in in *. rewrite omap_app, map_app, !sumZ_app. simpl.
    assert (0 <= p_length p).
    { rewrite Forall_forall in Hpos. apply Hpos.
      by eapply list_elem_of_lookup_2. }
    split.
    + destruct (Test bf n); rewrite ?Hp; simpl; lia.
    + intros Ht. rewrite Hall by (intros i Hi; apply Ht; lia).
      rewrite (Ht n) by lia. by rewrite Hp.
Qed.

Lemma sumZ_take_le (ps : list piece) n :
  Forall (fun p => 0 <= p_length p) ps ->
  sumZ (map p_length (take n ps)) <= sumZ (map p_length ps).
Proof.
  intros Hpos. rewrite <- (take_drop n ps) at 2.
  rewrite map_app, sumZ_app.
  assert (0 <= sumZ (map p_length (drop n ps))); [|lia].
  apply sumZ_nonneg. apply Forall_forall. intros x Hx.
  apply list_elem_of_fmap in Hx as (p & -> & Hin).
  rewrite Forall_forall in Hpos. apply Hpos.
  by apply (subseteq_drop n ps).
Qed.

Lemma Downloaded_in_range bf ps :
  (length bf <= List.length ps)%nat ->
  Forall (fun p => 0 <= p_length p) ps ->
  sumZ (map p_length ps) < 2 ^ 63 ->
  Downloaded bf ps = Some (sumZ (owned bf ps)) /\
  0 <= sumZ (owned bf ps) <= sumZ (map p_length ps) /\
  Left (sumZ (map p_length ps)) bf ps
    = Some (sumZ (map p_length ps) - sumZ (owned bf ps)).
Proof.
  intros Hlen Hpos Hfit.
  destruct (owned_in_prefix bf ps (length bf) Hlen Hpos) as [Hsum _].
  pose proof (sumZ_take_le ps (length bf) Hpos) as Hle.
  fold (owned bf ps) in Hsum.
  assert (Hd : Downloaded bf ps = Some (sumZ (owned bf ps))).
  { unfold Downloaded. rewrite foldl_add_piece_Some.
    - fold (owned bf ps). f_equal. apply wrap64_small. lia.
    - by apply wrap64_small.
    - apply Forall_forall. intros i Hi _. apply elem_of_seq in Hi.
      apply lookup_lt_is_Some_2. lia. }
  split_and!; [done|lia|lia|].
  unfold Left. rewrite Hd. f_equal. apply wrap64_small. lia.
Qed.

(** X24: when there is a piece for every bit, the piece lengths are not
    negative and their total fits in 63 bits, nothing wraps: [Downloaded] is
    exactly the sum of the lengths of the pieces whose bit is set, it lies
    between 0 and the total of all pieces, and [Left] of that total is the
    rest, which is not negative. *)
Theorem Downloaded_exact bf ps :
  (length bf <= List.length ps)%nat ->
  Forall (fun p => 0 <= p_length p) ps ->
  sumZ (map p_length ps) < 2 ^ 63 ->
  Downloaded bf ps = Some (sumZ (owned bf ps)) /\
  0 <= sumZ (owned bf ps) <= sumZ (map p_length ps) /\
  Left (sumZ (map p_length ps)) bf ps
    = Some (sumZ (map p_length ps) - sumZ (owned bf ps)).
Proof.
  exact (Downloaded_in_range bf ps).
Qed.

(** X25: when every bit is set, with one bit per piece and under the same
    bounds, [Downloaded] is the total of all piece lengths and [Left] of that
    total is 0. *)
Theorem nothing_left_when_complete bf ps :
  All bf = true ->
  length bf = List.length ps ->
  Forall (fun p => 0 <= p_length p) ps ->
  sumZ (map p_length ps) < 2 ^ 63 ->
  Downloaded bf ps = Some (sumZ (map p_length ps)) /\
  Left (sumZ (map p_length ps)) bf ps = Some 0.
Proof.
  intros Hall Hlen Hpos Hfit.
  destruct (Downloaded_in_range bf ps) as (Hd & _ & Hl); [lia|done|done|].
  destruct (owned_in_prefix bf ps (length bf)) as [_ Hown]; [lia|done|].
  fold (owned bf ps) in Hown.
  rewrite Hown in Hd, Hl by (by apply All_spec).
  rewrite Hlen, firstn_all in Hd, Hl.
  split; [done|]. rewrite Hl. f_equal. lia.
Qed.

End TransferAccounting.

(** ** [connect] for every dialer, and the two minima *)

Section TransferConnect.

Import bitfield rain.

(** X26: whatever [connection.Dial] does, [connect] serves a peer exactly
    when the dial succeeded, and then closes the connection once, after
    serving (the deferred [Close]); when the dial failed it logs once, closes
    nothing itself and serves nobody. *)
Theorem connect_serves_iff_dialed Dial t addr :
  let '(evs, res) :=
    Dial addr (negb (DisableOutgoing (config t))) (ForceOutgoing (config t))
         (replicate 8 0) (infoHash t) (peerID t) in
  exists own, connect Dial t addr = evs ++ own /\
    match res with
    | DialOk conn ext =>
        own = [NewPeer conn; LogConnected; LogExtensions ext; Serve conn;
               ConnClose conn] /\
        serve_count own = 1%nat /\ log_count own = 0%nat
    | DialErr err =>
        own = [match err with
               | ErrOwnConnection => LogDebug err
               | _ => LogDialError err
               end] /\
        serve_count own = 0%nat /\ log_count own = 1%nat
    end.
Proof.
  unfold connect.
  destruct (Dial _ _ _ _ _ _) as [evs [err|conn ext]].
  - eexists. split; [done|]. by destruct err.
  - eexists. by split.
Qed.

(** [minInt64] and [minUint32] return one of their arguments, and it
    is a lower bound of both and the greatest one. *)
Theorem min_is_greatest_lower_bound a c :
  (minInt64 a c = a \/ minInt64 a c = c) /\
  minInt64 a c <= a /\ minInt64 a c <= c /\
  (forall x, x <= a -> x <= c -> x <= minInt64 a c) /\
  minUint32 a c = minInt64 a c /\
  minInt64 a c = minInt64 c a.
Proof.
  unfold minInt64, minUint32.
  destruct (Z.ltb_spec a c), (Z.ltb_spec c a); split_and!; try lia; try done;
    intros; lia.
Qed.

End TransferConnect.

Section TransferAccountingExamples.

Import bitfield rain.

(** The second of two pieces is there: 1000 bytes down, 16384 to go. *)
Lemma Downloaded_plus_Left_witness :
  1000 = wrap64 (sumZ (owned (Set_ (New 2) 1) two_pieces)) /\
  exists l, Left 17384 (Set_ (New 2) 1) two_pieces = Some l /\
            wrap64 (1000 + l) = wrap64 17384.
Proof.
  apply (Downloaded_plus_Left (Set_ (New 2) 1) two_pieces 17384 1000).
  reflexivity.
Defined.

Lemma Downloaded_exact_witness :
  Downloaded (Set_ (New 2) 1) two_pieces
    = Some (sumZ (owned (Set_ (New 2) 1) two_pieces)) /\
  0 <= sumZ (owned (Set_ (New 2) 1) two_pieces)
    <= sumZ (map p_length two_pieces) /\
  Left (sumZ (map p_length two_pieces)) (Set_ (New 2) 1) two_pieces
    = Some (sumZ (map p_length two_pieces)
            - sumZ (owned (Set_ (New 2) 1) two_pieces)).
Proof.
  apply (Downloaded_exact (Set_ (New 2) 1) two_pieces).
  - simpl. lia.
  - repeat constructor; simpl; lia.
  - simpl. lia.
Defined.

Lemma nothing_left_when_complete_witness :
  Downloaded (Set_ (Set_ (New 2) 0) 1) two_pieces
    = Some (sumZ (map p_length two_pieces)) /\
  Left (sumZ (map p_length two_pieces)) (Set_ (Set_ (New 2) 0) 1) two_pieces
    = Some 0.
Proof.
  apply (nothing_left_when_complete (Set_ (Set_ (New 2) 0) 1) two_pieces).
  - reflexivity.
  - reflexivity.
  - repeat constructor; simpl; lia.
  - simpl. lia.
Defined.

(** A set bit without a piece: [Downloaded] panics. *)
Lemma Downloaded_panics_without_piece :
  Downloaded (Set_ (New 2) 1) [mkPiece 0 16384] = None.
Proof. reflexivity. Qed.

End TransferAccountingExamples.

(** ** Facts about the file preparer *)

Section FilePreparerFacts.

Import FilePreparer.

Variable faults : string -> Faults.
Variable mkdir_fails : string -> bool.
Variable Join : list string -> string.
Variable Dir : string -> string.

Lemma OpenFile_ok w path :
  open_fails (faults path) = false ->
  OpenFile faults path w =
    (mkWorld (if bool_decide (is_Some (disk w !! path)) then disk w
              else <[path := 0]> (disk w))
             (calls w ++ [SysOpen path]),
     inr (mkHandle path)).
Proof.
  intros Ho. unfold OpenFile, bind, emit, is_file, set_size, ret; simpl.
  rewrite Ho; simpl. by case_bool_decide.
Qed.

(** What [openOrAllocate] does once the file is open and [Stat] answered:
    the three outcomes of its [if]/[else], with the calls made on the way. *)
Lemma openOrAllocate_run w path length :
  open_fails (faults path) = false ->
  stat_fails (faults path) = false ->
  truncate_fails (faults path) = false ->
  sync_fails (faults path) = false ->
  openOrAllocate faults path length w =
    let sz := size_at_stat w path in
    let d := if bool_decide (is_Some (disk w !! path)) then disk w
             else <[path := 0]> (disk w) in
    if (sz =? 0) && negb (length =? 0) then
      (mkWorld (<[path := length]> d)
               (calls w ++ [SysOpen path; SysStat path;
                            SysTruncate path length; SysSync path]),
       inr (mkHandle path, false))
    else if negb (sz =? length) then
      (mkWorld d (calls w ++ [SysOpen path; SysStat path; SysClose path]),
       inl (ErrSizeMismatch path length sz))
    else
      (mkWorld d (calls w ++ [SysOpen path; SysStat path]),
       inr (mkHandle path, true)).
Proof.
  intros Ho Hs Ht Hy. unfold openOrAllocate, bind at 1.
  rewrite (OpenFile_ok _ _ Ho).
  unfold close_on_error, Stat, Truncate, Sync, bind, emit, get_size,
    set_size, ret, throw, size_at_stat; simpl.
  rewrite Hs; simpl.
  assert (Hsz : default 0
            ((if bool_decide (is_Some (disk w !! path)) then disk w
              else <[path := 0]> (disk w)) !! path)
          = default 0 (disk w !! path)).
  { case_bool_decide as Hp; [done|].
    rewrite lookup_insert_eq.
    destruct (disk w !! path) eqn:E; [|done].
    exfalso; apply Hp; eauto. }
  rewrite Hsz.
  destruct ((default 0 (disk w !! path) =? 0) && negb (length =? 0)) eqn:Hc.
  - rewrite Ht; simpl. rewrite Hy; simpl.
    by rewrite <- !app_assoc.
  - destruct (negb (default 0 (disk w !! path) =? length)); simpl;
      by rewrite <- !app_assoc.
Qed.

Lemma no_faults_flags path :
  faults path = no_faults ->
  open_fails (faults path) = false /\ stat_fails (faults path) = false /\
  truncate_fails (faults path) = false /\ sync_fails (faults path) = false.
Proof. intros ->. done. Qed.

(** The same three outcomes, read off the size that [Stat] reports. *)
Lemma openOrAllocate_allocates w path length :
  faults path = no_faults ->
  size_at_stat w path = 0 -> length <> 0 ->
  openOrAllocate faults path length w =
    (mkWorld (<[path := length]> (disk w))
             (calls w ++ [SysOpen path; SysStat path;
                          SysTruncate path length; SysSync path]),
     inr (mkHandle path, false)).
Proof.
  intros (Ho & Hs & Ht & Hy)%no_faults_flags Hsz Hl.
  rewrite openOrAllocate_run by done. simpl. rewrite Hsz.
  replace (length =? 0) with false by lia. simpl.
  case_bool_decide; [done|]. by rewrite insert_insert_eq.
Qed.

Lemma openOrAllocate_mismatch w path length sz :
  faults path = no_faults ->
  disk w !! path = Some sz -> sz <> 0 -> sz <> length ->
  openOrAllocate faults path length w =
    (mkWorld (disk w) (calls w ++ [SysOpen path; SysStat path; SysClose path]),
     inl (ErrSizeMismatch path length sz)).
Proof.
  intros (Ho & Hs & Ht & Hy)%no_faults_flags Hd Hz Hl.
  rewrite openOrAllocate_run by done. simpl.
  unfold size_at_stat. rewrite Hd; simpl.
  replace (sz =? 0) with false by lia. simpl.
  replace (sz =? length) with false by lia. simpl.
  done.
Qed.

Lemma openOrAllocate_matches w path length :
  faults path = no_faults ->
  size_at_stat w path = length ->
  openOrAllocate faults path length w =
    (mkWorld (if bool_decide (is_Some (disk w !! path)) then disk w
              else <[path := 0]> (disk w))
             (calls w ++ [SysOpen path; SysStat path]),
     inr (mkHandle path, true)).
Proof.
  intros (Ho & Hs & Ht & Hy)%no_faults_flags Hsz.
  rewrite openOrAllocate_run by done. simpl. rewrite Hsz.
  destruct (Z.eqb_spec length 0) as [->|Hn]; simpl.
  - done.
  - by rewrite Z.eqb_refl.
Qed.

(** [prepareFiles] on a single-file torrent hands back the [exists] flag of
    its one [openOrAllocate] call as [checkHash]. *)
Lemma prepareFiles_single info where_ w w' h exists_ :
  MultiFile info = false ->
  openOrAllocate faults (Join [where_; Name info]) (Length info) w
    = (w', inr (h, exists_)) ->
  prepareFiles faults mkdir_fails Join Dir info where_ w
    = (w', inr ([h], exists_)).
Proof.
  intros Hm Hrun. unfold prepareFiles, bind. rewrite Hm; simpl.
  rewrite Hrun. by destruct exists_.
Qed.

(** The loop over a concatenation is the loop over the first part followed
    by the loop over the second, started from the results so far. *)
Lemma prepareLoop_app where_ name pre post files checkHash w :
  prepareLoop faults mkdir_fails Join Dir where_ name (pre ++ post)
              files checkHash w =
  (let* (files', checkHash') :=
       prepareLoop faults mkdir_fails Join Dir where_ name pre files checkHash in
   prepareLoop faults mkdir_fails Join Dir where_ name post files' checkHash') w.
Proof.
  revert files checkHash w.
  induction pre as [|f pre IH]; intros files checkHash w; [done|].
  simpl. unfold bind.
  destruct (MkdirAll mkdir_fails _ w) as [w1 [e|[]]]; [done|].
  destruct (openOrAllocate faults _ _ w1) as [w2 [e|[h ex]]]; [done|].
  apply IH.
Qed.

(** Once [checkHash] is set the loop never clears it. *)
Lemma prepareLoop_keeps_true where_ name fs files w w' files' checkHash' :
  prepareLoop faults mkdir_fails Join Dir where_ name fs files true w
    = (w', inr (files', checkHash')) ->
  checkHash' = true.
Proof.
  revert files w. induction fs as [|f fs IH]; intros files w; simpl.
  - unfold ret. congruence.
  - unfold bind.
    destruct (MkdirAll mkdir_fails _ w) as [w1 [e|[]]]; [done|].
    destruct (openOrAllocate faults _ _ w1) as [w2 [e|[h ex]]]; [done|].
    destruct ex; apply IH.
Qed.

Lemma MkdirAll_ok dir w :
  mkdir_fails dir = false ->
  MkdirAll mkdir_fails dir w
    = (mkWorld (disk w) (calls w ++ [SysMkdirAll dir]), inr tt).
Proof. intros H. unfold MkdirAll, bind, emit, ret; simpl. by rewrite H. Qed.

(** In a multi-file torrent, a file whose [openOrAllocate] call finds its
    size equal to its declared length sets [checkHash] for the whole call. *)
Lemma prepareLoop_sets_checkHash where_ name pre f post w w1 files1 c1 wf filesf cf :
  prepareLoop faults mkdir_fails Join Dir where_ name pre [] false w
    = (w1, inr (files1, c1)) ->
  mkdir_fails (Dir (Join ([where_; name] ++ fd_Path f))) = false ->
  faults (Join ([where_; name] ++ fd_Path f)) = no_faults ->
  size_at_stat w1 (Join ([where_; name] ++ fd_Path f)) = fd_Length f ->
  prepareLoop faults mkdir_fails Join Dir where_ name (pre ++ f :: post) [] false w
    = (wf, inr (filesf, cf)) ->
  cf = true.
Proof.
  intros Hpre Hmk Hio Hsz. rewrite prepareLoop_app. unfold bind at 1.
  rewrite Hpre. simpl. unfold bind at 1. rewrite MkdirAll_ok by done.
  unfold bind at 1. rewrite openOrAllocate_matches by done.
  apply prepareLoop_keeps_true.
Qed.

(** In a multi-file torrent whose files are all absent, of nonzero declared
    length and on distinct paths, no file asks for a hash check. *)
Lemma prepareLoop_all_new where_ name fs files checkHash w :
  NoDup (map (fun f => Join ([where_; name] ++ fd_Path f)) fs) ->
  Forall (fun f =>
            let path := Join ([where_; name] ++ fd_Path f) in
            disk w !! path = None /\ fd_Length f <> 0 /\
            faults path = no_faults /\ mkdir_fails (Dir path) = false) fs ->
  exists w' files',
    prepareLoop faults mkdir_fails Join Dir where_ name fs files checkHash w
      = (w', inr (files', checkHash)).
Proof.
  revert files w. induction fs as [|f fs IH]; intros files w Hnd Hall.
  - by exists w, files.
  - apply NoDup_cons in Hnd as [Hnotin Hnd].
    apply Forall_cons in Hall as [(Hnone & Hlen & Hio & Hmk) Hall].
    simpl in *. unfold bind at 1. rewrite MkdirAll_ok by done.
    unfold bind at 1.
    rewrite openOrAllocate_allocates;
      [| done | by unfold size_at_stat; simpl; rewrite Hnone | done].
    simpl. apply IH; [done|].
    apply Forall_forall. intros g Hg.
    rewrite Forall_forall in Hall. destruct (Hall g Hg) as (Hgn & ? & ? & ?).
    simpl. split_and!; try done.
    rewrite lookup_insert_ne; [done|].
    intros Heq. apply Hnotin. rewrite Heq.
    apply list_elem_of_fmap. by exists g.
Qed.

Lemma prepareFiles_single_error info where_ w w' e :
  MultiFile info = false ->
  openOrAllocate faults (Join [where_; Name info]) (Length info) w
    = (w', inl e) ->
  prepareFiles faults mkdir_fails Join Dir info where_ w = (w', inl e).
Proof.
  intros Hm Hrun. unfold prepareFiles, bind. rewrite Hm; simpl.
  by rewrite Hrun.
Qed.

(** C8, as the code has it: a declared file that is already on disk with a
    nonzero size different from its declared length makes the file preparer
    fail with the size-mismatch error (and closes the file); a file already
    on disk whose size is exactly the declared length is accepted, nothing on
    disk changes, and a hash check is required. *)
Theorem preexisting_file_size_check w path sz length :
  disk w !! path = Some sz ->
  faults path = no_faults ->
  (sz <> 0 -> sz <> length ->
     openOrAllocate faults path length w
       = (mkWorld (disk w)
                  (calls w ++ [SysOpen path; SysStat path; SysClose path]),
          inl (ErrSizeMismatch path length sz)) /\
     forall info where_,
       MultiFile info = false -> Join [where_; Name info] = path ->
       Length info = length ->
       snd (prepareFiles faults mkdir_fails Join Dir info where_ w)
         = inl (ErrSizeMismatch path length sz)) /\
  (sz = length ->
     openOrAllocate faults path length w
       = (mkWorld (disk w) (calls w ++ [SysOpen path; SysStat path]),
          inr (mkHandle path, true)) /\
     forall info where_,
       MultiFile info = false -> Join [where_; Name info] = path ->
       Length info = length ->
       snd (prepareFiles faults mkdir_fails Join Dir info where_ w)
         = inr ([mkHandle path], true)).
Proof.
  intros Hd Hio. split.
  - intros Hz Hne.
    pose proof (openOrAllocate_mismatch w path length sz Hio Hd Hz Hne) as Hrun.
    split; [exact Hrun|].
    intros info where_ Hm Hj Hl. subst path length.
    by rewrite (prepareFiles_single_error _ _ _ _ _ Hm Hrun).
  - intros ->.
    assert (Hrun : openOrAllocate faults path length w
       = (mkWorld (disk w) (calls w ++ [SysOpen path; SysStat path]),
          inr (mkHandle path, true))).
    { rewrite openOrAllocate_matches; [| done | by unfold size_at_stat; rewrite Hd].
      rewrite bool_decide_eq_true_2; [done | by rewrite Hd]. }
    split; [exact Hrun|].
    intros info where_ Hm Hj Hl. subst path length.
    by rewrite (prepareFiles_single _ _ _ _ _ _ Hm Hrun).
Qed.

(** C9: a declared file whose path does not exist yet and whose declared
    length is nonzero is created, truncated to exactly the declared length
    and flushed ([Truncate] then [Sync], after [OpenFile] and [Stat]), and
    [exists] is false; a single-file torrent therefore asks for no hash
    check. *)
Theorem new_file_is_allocated w path length :
  disk w !! path = None ->
  length <> 0 ->
  faults path = no_faults ->
  let w' := mkWorld (<[path := length]> (disk w))
                    (calls w ++ [SysOpen path; SysStat path;
                                 SysTruncate path length; SysSync path]) in
  openOrAllocate faults path length w = (w', inr (mkHandle path, false)) /\
  disk w' !! path = Some length /\
  (forall info where_,
     MultiFile info = false -> Join [where_; Name info] = path ->
     Length info = length ->
     prepareFiles faults mkdir_fails Join Dir info where_ w
       = (w', inr ([mkHandle path], false))).
Proof.
  intros Hnone Hlen Hio w'.
  assert (Hrun : openOrAllocate faults path length w
                 = (w', inr (mkHandle path, false))).
  { apply openOrAllocate_allocates; [done | | done].
    unfold size_at_stat. by rewrite Hnone. }
  split_and!.
  - exact Hrun.
  - apply lookup_insert_eq.
  - intros info where_ Hm Hj Hl. subst path length.
    by apply prepareFiles_single.
Qed.

(** C10: [openOrAllocate] tells a new file from an old one by the size that
    [Stat] reports and by nothing else.  Size 0 with a nonzero declared
    length: the file is truncated to the declared length and [exists] is
    false, also when the empty file was already there.  Size equal to the
    declared length: [exists] is true, also for a file created a moment ago
    with declared length 0, and [prepareFiles] then returns [checkHash] true,
    in the single-file layout and, when the call succeeds, in the multi-file
    layout ([w] is then the disk when the file's turn comes). *)
Theorem exists_flag_decided_by_size w path length :
  faults path = no_faults ->
  (size_at_stat w path = 0 -> length <> 0 ->
     openOrAllocate faults path length w
       = (mkWorld (<[path := length]> (disk w))
                  (calls w ++ [SysOpen path; SysStat path;
                               SysTruncate path length; SysSync path]),
          inr (mkHandle path, false)) /\
     (forall info where_,
        MultiFile info = false -> Join [where_; Name info] = path ->
        Length info = length ->
        snd (prepareFiles faults mkdir_fails Join Dir info where_ w)
          = inr ([mkHandle path], false))) /\
  (size_at_stat w path = length ->
     (exists w', openOrAllocate faults path length w
                   = (w', inr (mkHandle path, true))) /\
     (forall info where_,
        MultiFile info = false -> Join [where_; Name info] = path ->
        Length info = length ->
        snd (prepareFiles faults mkdir_fails Join Dir info where_ w)
          = inr ([mkHandle path], true)) /\
     (forall info where_ pre f post w0 files1 c1 wf filesf cf,
        MultiFile info = true -> Files info = pre ++ f :: post ->
        Join ([where_; Name info] ++ fd_Path f) = path ->
        fd_Length f = length ->
        mkdir_fails (Dir path) = false ->
        prepareLoop faults mkdir_fails Join Dir where_ (Name info) pre [] false w0
          = (w, inr (files1, c1)) ->
        prepareFiles faults mkdir_fails Join Dir info where_ w0
          = (wf, inr (filesf, cf)) ->
        cf = true)) /\
  (forall w2, size_at_stat w2 path = size_at_stat w path ->
     snd (openOrAllocate faults path length w2)
       = snd (openOrAllocate faults path length w)).
Proof.
  intros Hio. split_and!.
  - intros Hsz Hlen.
    pose proof (openOrAllocate_allocates w path length Hio Hsz Hlen) as Hrun.
    split; [exact Hrun|].
    intros info where_ Hm Hj Hl. subst path length.
    by rewrite (prepareFiles_single _ _ _ _ _ _ Hm Hrun).
  - intros Hsz.
    pose proof (openOrAllocate_matches w path length Hio Hsz) as Hrun.
    split_and!.
    + eexists. exact Hrun.
    + intros info where_ Hm Hj Hl. subst path.
      rewrite <- Hl in Hrun.
      by rewrite (prepareFiles_single _ _ _ _ _ _ Hm Hrun).
    + intros info where_ pre f post w0 files1 c1 wf filesf cf
        Hm Hfiles Hj Hl Hmk Hpre Hall.
      unfold prepareFiles in Hall. rewrite Hm, Hfiles in Hall. simpl in Hall.
      subst path length.
      by eapply (prepareLoop_sets_checkHash where_ (Name info) pre f post
                   w0 w files1 c1 wf filesf cf).
  - intros w2 Hsame.
    destruct (no_faults_flags _ Hio) as (Ho & Hs & Ht & Hy).
    rewrite !openOrAllocate_run by done. simpl. rewrite Hsame.
    destruct ((size_at_stat w path =? 0) && negb (length =? 0)); [done|].
    by destruct (negb (size_at_stat w path =? length)).
Qed.

End FilePreparerFacts.

(** *** The file preparer on concrete disks *)

Section FilePreparerExamples.

Import FilePreparer.

(** A file of 900 bytes declared as 1000 bytes is refused. *)
Lemma preexisting_file_size_check_witness :
  snd (openOrAllocate all_ok "dl/a.iso" 1000 (disk_with "dl/a.iso" 900))
    = inl (ErrSizeMismatch "dl/a.iso" 1000 900) /\
  snd (prepareFiles all_ok mkdir_ok join_slash dir_of (single "a.iso" 1000) "dl"
         (disk_with "dl/a.iso" 1000))
    = inr ([mkHandle "dl/a.iso"], true).
Proof.
  split.
  - assert (H900 : disk (disk_with "dl/a.iso" 900) !! "dl/a.iso" = Some 900)
      by reflexivity.
    destruct (preexisting_file_size_check all_ok mkdir_ok join_slash dir_of
                (disk_with "dl/a.iso" 900) "dl/a.iso" 900 1000 H900 eq_refl)
      as [Hbad _].
    destruct Hbad as [Hrun _]; [lia | lia |].
    rewrite Hrun. reflexivity.
  - assert (H1000 : disk (disk_with "dl/a.iso" 1000) !! "dl/a.iso" = Some 1000)
      by reflexivity.
    destruct (preexisting_file_size_check all_ok mkdir_ok join_slash dir_of
                (disk_with "dl/a.iso" 1000) "dl/a.iso" 1000 1000 H1000 eq_refl)
      as [_ Hgood].
    destruct Hgood as [_ Hprep]; [reflexivity|].
    apply Hprep; reflexivity.
Defined.

(** C8 as the spec words it fails: an empty file that is already on disk,
    declared as 1000 bytes, has a size different from its declared length,
    yet it is not refused: it is truncated to 1000 bytes and [exists] is
    false. *)
Lemma preexisting_empty_file_not_refused :
  disk (disk_with "dl/a.iso" 0) !! "dl/a.iso" = Some 0 /\
  0 <> 1000 /\
  all_ok "dl/a.iso" = no_faults /\
  openOrAllocate all_ok "dl/a.iso" 1000 (disk_with "dl/a.iso" 0)
    = (mkWorld {[ "dl/a.iso" := 1000 ]}
               [SysOpen "dl/a.iso"; SysStat "dl/a.iso";
                SysTruncate "dl/a.iso" 1000; SysSync "dl/a.iso"],
       inr (mkHandle "dl/a.iso", false)) /\
  ~ (exists w', openOrAllocate all_ok "dl/a.iso" 1000 (disk_with "dl/a.iso" 0)
                = (w', inl (ErrSizeMismatch "dl/a.iso" 1000 0))).
Proof.
  assert (Hrun : openOrAllocate all_ok "dl/a.iso" 1000 (disk_with "dl/a.iso" 0)
    = (mkWorld {[ "dl/a.iso" := 1000 ]}
               [SysOpen "dl/a.iso"; SysStat "dl/a.iso";
                SysTruncate "dl/a.iso" 1000; SysSync "dl/a.iso"],
       inr (mkHandle "dl/a.iso", false))).
  { rewrite openOrAllocate_allocates by (reflexivity || lia).
    unfold disk_with; simpl. by rewrite insert_singleton_eq. }
  split_and!; [reflexivity | lia | reflexivity | exact Hrun |].
  intros [w' Hw']. rewrite Hrun in Hw'. discriminate.
Qed.

(** A path that does not exist, declared as 1000 bytes. *)
Lemma new_file_is_allocated_witness :
  openOrAllocate all_ok "dl/a.iso" 1000 empty_disk
    = (mkWorld (<["dl/a.iso" := 1000]> ∅)
               [SysOpen "dl/a.iso"; SysStat "dl/a.iso";
                SysTruncate "dl/a.iso" 1000; SysSync "dl/a.iso"],
       inr (mkHandle "dl/a.iso", false)) /\
  prepareFiles all_ok mkdir_ok join_slash dir_of (single "a.iso" 1000) "dl" empty_disk
    = (mkWorld (<["dl/a.iso" := 1000]> ∅)
               [SysOpen "dl/a.iso"; SysStat "dl/a.iso";
                SysTruncate "dl/a.iso" 1000; SysSync "dl/a.iso"],
       inr ([mkHandle "dl/a.iso"], false)).
Proof.
  assert (Hnone : disk empty_disk !! "dl/a.iso" = None) by reflexivity.
  assert (Hlen : 1000 <> 0) by lia.
  destruct (new_file_is_allocated all_ok mkdir_ok join_slash dir_of
              empty_disk "dl/a.iso" 1000 Hnone Hlen eq_refl)
    as (Hrun & _ & Hprep).
  split; [exact Hrun|].
  apply Hprep; reflexivity.
Defined.

(** The two borderline cases of C10: an empty file that was already there,
    and a file created a moment ago whose declared length is 0. *)
Lemma exists_flag_decided_by_size_witness :
  snd (openOrAllocate all_ok "dl/a.iso" 1000 (disk_with "dl/a.iso" 0))
    = inr (mkHandle "dl/a.iso", false) /\
  snd (prepareFiles all_ok mkdir_ok join_slash dir_of (single "a.iso" 0) "dl" empty_disk)
    = inr ([mkHandle "dl/a.iso"], true).
Proof.
  split.
  - destruct (exists_flag_decided_by_size all_ok mkdir_ok join_slash dir_of
                (disk_with "dl/a.iso" 0) "dl/a.iso" 1000 eq_refl)
      as (Hzero & _ & _).
    destruct Hzero as [Hrun _]; [reflexivity | lia |].
    rewrite Hrun. reflexivity.
  - destruct (exists_flag_decided_by_size all_ok mkdir_ok join_slash dir_of
                empty_disk "dl/a.iso" 0 eq_refl)
      as (_ & Hsame & _).
    destruct Hsame as (_ & Hprep & _); [reflexivity|].
    apply Hprep; reflexivity.
Defined.

End FilePreparerExamples.

(** ** The file preparer under arbitrary failures *)

Section FilePreparerFailures.

Import FilePreparer.

Variable faults : string -> Faults.
Variable mkdir_fails : string -> bool.
Variable Join : list string -> string.
Variable Dir : string -> string.

(** Every way [openOrAllocate] can go, by the calls that fail. *)
Lemma openOrAllocate_cases w path length :
  openOrAllocate faults path length w =
    let sz := size_at_stat w path in
    let d := if bool_decide (is_Some (disk w !! path)) then disk w
             else <[path := 0]> (disk w) in
    if open_fails (faults path) then
      (mkWorld (disk w) (calls w ++ [SysOpen path]), inl (ErrOpen path))
    else if stat_fails (faults path) then
      (mkWorld d (calls w ++ [SysOpen path; SysStat path; SysClose path]),
       inl (ErrStat path))
    else if (sz =? 0) && negb (length =? 0) then
      if truncate_fails (faults path) then
        (mkWorld d (calls w ++ [SysOpen path; SysStat path;
                                SysTruncate path length; SysClose path]),
         inl (ErrTruncate path))
      else if sync_fails (faults path) then
        (mkWorld (<[path := length]> d)
                 (calls w ++ [SysOpen path; SysStat path;
                              SysTruncate path length; SysSync path;
                              SysClose path]),
         inl (ErrSync path))
      else
        (mkWorld (<[path := length]> d)
                 (calls w ++ [SysOpen path; SysStat path;
                              SysTruncate path length; SysSync path]),
         inr (mkHandle path, false))
    else if negb (sz =? length) then
      (mkWorld d (calls w ++ [SysOpen path; SysStat path; SysClose path]),
       inl (ErrSizeMismatch path length sz))
    else
      (mkWorld d (calls w ++ [SysOpen path; SysStat path]),
       inr (mkHandle path, true)).
Proof.
  cbv zeta.
  destruct (open_fails (faults path)) eqn:Ho.
  { unfold openOrAllocate, OpenFile, bind, emit, throw; simpl. by rewrite Ho. }
  unfold openOrAllocate, bind at 1. rewrite (OpenFile_ok faults w path Ho).
  assert (Hsz : default 0
            ((if bool_decide (is_Some (disk w !! path)) then disk w
              else <[path := 0]> (disk w)) !! path)
          = size_at_stat w path).
  { unfold size_at_stat. case_bool_decide as Hp; [done|].
    rewrite lookup_insert_eq.
    destruct (disk w !! path) eqn:E; [|done].
    exfalso; apply Hp; eauto. }
  unfold close_on_error, Stat, Truncate, Sync, bind, emit, get_size,
    set_size, ret, throw; simpl.
  destruct (stat_fails (faults path)) eqn:Hs; simpl.
  { by rewrite <- !app_assoc. }
  rewrite Hsz.
  destruct ((size_at_stat w path =? 0) && negb (length =? 0)) eqn:Hc.
  - destruct (truncate_fails (faults path)); simpl.
    { by rewrite <- !app_assoc. }
    destruct (sync_fails (faults path)); simpl; by rewrite <- !app_assoc.
  - destruct (negb (size_at_stat w path =? length)); simpl;
      by rewrite <- !app_assoc.
Qed.

Lemma openOrAllocate_trace w path length :
  exists new,
    calls (openOrAllocate faults path length w).1 = calls w ++ new /\
    Forall (fun s => call_path s = path) new /\
    open_count new = 1%nat /\
    close_count new
      = match (openOrAllocate faults path length w).2 with
        | inl e => if after_open e then 1%nat else 0%nat
        | inr _ => 0%nat
        end.
Proof.
  rewrite openOrAllocate_cases. cbv zeta.
  destruct (open_fails (faults path)); [eexists; split_and!; [done| |done|done];
    by repeat constructor|].
  destruct (stat_fails (faults path)); [eexists; split_and!; [done| |done|done];
    by repeat constructor|].
  destruct ((size_at_stat w path =? 0) && negb (length =? 0)).
  - destruct (truncate_fails (faults path));
      [eexists; split_and!; [done| |done|done]; by repeat constructor|].
    destruct (sync_fails (faults path));
      eexists; (split_and!; [done| |done|done]); by repeat constructor.
  - destruct (negb (size_at_stat w path =? length));
      eexists; (split_and!; [done| |done|done]); by repeat constructor.
Qed.

(** X1: whatever calls fail, [openOrAllocate] opens the file once, makes
    calls on that file only, and closes it exactly when it returns an error
    raised after the file was opened (the deferred [Close]); it does not
    close it when it succeeds, nor when [OpenFile] itself failed. *)
Theorem openOrAllocate_close_discipline w path length :
  exists new,
    calls (openOrAllocate faults path length w).1 = calls w ++ new /\
    Forall (fun s => call_path s = path) new /\
    open_count new = 1%nat /\
    close_count new
      = match (openOrAllocate faults path length w).2 with
        | inl e => if after_open e then 1%nat else 0%nat
        | inr _ => 0%nat
        end.
Proof.
  exact (openOrAllocate_trace w path length).
Qed.

(** X2: [openOrAllocate] leaves every other file as it was, whatever
    fails. *)
Theorem openOrAllocate_other_files_untouched w path length p :
  p <> path ->
  disk (openOrAllocate faults path length w).1 !! p = disk w !! p.
Proof.
  intros Hne. rewrite openOrAllocate_cases. cbv zeta.
  assert (Hd : (if bool_decide (is_Some (disk w !! path)) then disk w
                else <[path := 0]> (disk w)) !! p = disk w !! p).
  { case_bool_decide; [done|]. by rewrite lookup_insert_ne. }
  repeat match goal with
         | |- context [if ?c then _ else _] =>
             lazymatch c with
             | bool_decide _ => fail
             | _ => destruct c
             end
         end; simpl; rewrite ?lookup_insert_ne by done; done.
Qed.

(** X3: a file that is on disk with a nonzero size keeps that size, whether
    [openOrAllocate] accepts it or refuses it and whatever fails: existing
    data is never truncated or extended. *)
Theorem openOrAllocate_keeps_nonempty_file w path length sz :
  disk w !! path = Some sz -> sz <> 0 ->
  disk (openOrAllocate faults path length w).1 !! path = Some sz.
Proof.
  intros Hd Hsz. rewrite openOrAllocate_cases. cbv zeta.
  unfold size_at_stat. rewrite Hd. simpl.
  replace (sz =? 0) with false by lia. simpl.
  destruct (open_fails (faults path)); [done|].
  destruct (stat_fails (faults path)); [done|].
  by destruct (negb (sz =? length)).
Qed.

Lemma openOrAllocate_result w path length w' f exists_ :
  openOrAllocate faults path length w = (w', inr (f, exists_)) ->
  f = mkHandle path /\
  disk w' !! path = Some length /\
  exists_ = negb ((size_at_stat w path =? 0) && negb (length =? 0)).
Proof.
  rewrite openOrAllocate_cases. cbv zeta.
  destruct (open_fails (faults path)); [done|].
  destruct (stat_fails (faults path)); [done|].
  destruct ((size_at_stat w path =? 0) && negb (length =? 0)) eqn:Hc.
  - destruct (truncate_fails (faults path)); [done|].
    destruct (sync_fails (faults path)); [done|].
    intros [= <- <- <-]. split_and!; [done| |done]. simpl.
    apply lookup_insert_eq.
  - destruct (negb (size_at_stat w path =? length)) eqn:Hm; [done|].
    intros [= <- <- <-]. split_and!; [done| |done]. simpl.
    apply negb_false_iff in Hm. apply Z.eqb_eq in Hm.
    unfold size_at_stat in Hm. case_bool_decide as Hp.
    + destruct Hp as [x Hx]. rewrite Hx in Hm |- *. simpl in Hm. by subst.
    + rewrite lookup_insert_eq. f_equal.
      destruct (disk w !! path) eqn:E; [exfalso; apply Hp; eauto|].
      by simpl in Hm.
Qed.

(** X4: when [openOrAllocate] succeeds, whichever branch it took, the handle
    is on the path asked for, the file on disk has exactly the declared
    length, and [exists] is false exactly when the file was empty with a
    nonzero declared length. *)
Theorem openOrAllocate_success w path length w' f exists_ :
  openOrAllocate faults path length w = (w', inr (f, exists_)) ->
  f = mkHandle path /\
  disk w' !! path = Some length /\
  exists_ = negb ((size_at_stat w path =? 0) && negb (length =? 0)).
Proof.
  exact (openOrAllocate_result w path length w' f exists_).
Qed.

(** X5: running [openOrAllocate] again on a file it has just accepted or
    allocated finds it in place: [exists] is true (so a restart asks for a
    hash check), the disk is unchanged, and the only calls are [OpenFile] and
    [Stat]. *)
Theorem openOrAllocate_again w path length w' f exists_ :
  openOrAllocate faults path length w = (w', inr (f, exists_)) ->
  open_fails (faults path) = false ->
  stat_fails (faults path) = false ->
  openOrAllocate faults path length w'
    = (mkWorld (disk w') (calls w' ++ [SysOpen path; SysStat path]),
       inr (mkHandle path, true)).
Proof.
  intros Hfirst Ho Hs.
  destruct (openOrAllocate_result _ _ _ _ _ _ Hfirst) as (_ & Hd & _).
  rewrite openOrAllocate_cases. cbv zeta. rewrite Ho, Hs.
  unfold size_at_stat. rewrite Hd. simpl.
  rewrite Z.eqb_refl. simpl.
  by destruct (length =? 0).
Qed.

(** X6: a failure after [OpenFile] is not rolled back.  For a path that did
    not exist and a nonzero declared length: if [Stat] or [Truncate] fails an
    empty file is left behind; if only [Sync] fails the file is left behind
    at its full declared length, so that the next attempt finds a file of the
    right size and reports [exists] true. *)
Theorem openOrAllocate_failure_leaves_file w path length :
  disk w !! path = None -> length <> 0 ->
  open_fails (faults path) = false ->
  (stat_fails (faults path) = true \/ truncate_fails (faults path) = true ->
     exists e, (openOrAllocate faults path length w).2 = inl e /\
     disk (openOrAllocate faults path length w).1 !! path = Some 0) /\
  (stat_fails (faults path) = false -> truncate_fails (faults path) = false ->
   sync_fails (faults path) = true ->
     (openOrAllocate faults path length w).2 = inl (ErrSync path) /\
     disk (openOrAllocate faults path length w).1 !! path = Some length /\
     (openOrAllocate (fun _ => no_faults) path length
        (openOrAllocate faults path length w).1).2
       = inr (mkHandle path, true)).
Proof.
  intros Hnone Hlen Ho. rewrite openOrAllocate_cases. cbv zeta. rewrite Ho.
  unfold size_at_stat. rewrite !Hnone. simpl.
  replace (length =? 0) with false by lia. simpl.
  split.
  - intros [Hs|Ht].
    + rewrite Hs. eexists. split; [done|]. simpl. apply lookup_insert_eq.
    + destruct (stat_fails (faults path)).
      * eexists. split; [done|]. simpl. apply lookup_insert_eq.
      * rewrite Ht. eexists. split; [done|]. simpl. apply lookup_insert_eq.
  - intros Hs Ht Hy. rewrite Hs, Ht, Hy. simpl.
    split_and!; [done | apply lookup_insert_eq |].
    rewrite openOrAllocate_matches; [done | done |].
    unfold size_at_stat. simpl. by rewrite lookup_insert_eq.
Qed.

Lemma close_count_app cs1 cs2 :
  close_count (cs1 ++ cs2) = (close_count cs1 + close_count cs2)%nat.
Proof. unfold close_count. by rewrite List.filter_app, List.length_app. Qed.

Lemma open_count_app cs1 cs2 :
  open_count (cs1 ++ cs2) = (open_count cs1 + open_count cs2)%nat.
Proof. unfold open_count. by rewrite List.filter_app, List.length_app. Qed.

(** One turn of the multi-file loop. *)
Lemma prepareLoop_cons where_ name f fs files checkHash w :
  prepareLoop faults mkdir_fails Join Dir where_ name (f :: fs) files
              checkHash w =
    let path := Join ([where_; name] ++ fd_Path f) in
    let w1 := mkWorld (disk w) (calls w ++ [SysMkdirAll (Dir path)]) in
    if mkdir_fails (Dir path) then (w1, inl (ErrMkdirAll (Dir path)))
    else
      match openOrAllocate faults path (fd_Length f) w1 with
      | (w2, inl e) => (w2, inl e)
      | (w2, inr (h, ex)) =>
          prepareLoop faults mkdir_fails Join Dir where_ name fs
                      (files ++ [h]) (if ex : bool then true else checkHash) w2
      end.
Proof.
  cbn [prepareLoop]. cbv [bind MkdirAll emit throw ret disk calls].
  destruct (mkdir_fails (Dir (Join ([where_; name] ++ fd_Path f)))); [done|].
  destruct (openOrAllocate faults _ _ _) as [w2 [e|[h ex]]]; done.
Qed.

(** The calls of the multi-file loop, whatever fails. *)
Lemma prepareLoop_calls where_ name fs files checkHash w :
  exists new,
    calls (prepareLoop faults mkdir_fails Join Dir where_ name fs files
                       checkHash w).1 = calls w ++ new /\
    match (prepareLoop faults mkdir_fails Join Dir where_ name fs files
                       checkHash w).2 with
    | inl e =>
        close_count new = (if after_open e then 1 else 0)%nat /\
        (open_count new <= List.length fs)%nat
    | inr (files', _) =>
        close_count new = 0%nat /\
        open_count new = List.length fs /\
        map h_path files'
          = map h_path files
            ++ map (fun f => Join ([where_; name] ++ fd_Path f)) fs
    end.
Proof.
  revert files checkHash w.
  induction fs as [|f fs IH]; intros files checkHash w.
  - exists []. simpl. rewrite !app_nil_r. done.
  - rewrite prepareLoop_cons. cbv zeta.
    set (path := Join ([where_; name] ++ fd_Path f)).
    set (w1 := mkWorld (disk w) (calls w ++ [SysMkdirAll (Dir path)])).
    destruct (mkdir_fails (Dir path)) eqn:Hmk.
    { exists [SysMkdirAll (Dir path)]. simpl. split; [done|].
      split; [done|]. unfold open_count. simpl. lia. }
    destruct (openOrAllocate_trace w1 path (fd_Length f))
      as (new1 & Hcalls1 & _ & Hopen1 & Hclose1).
    destruct (openOrAllocate faults path (fd_Length f) w1)
      as [w2 [e|[h ex]]] eqn:Hrun; cbn [fst snd] in *.
    + exists (SysMkdirAll (Dir path) :: new1).
      rewrite Hcalls1. unfold w1. cbn [calls]. rewrite <- app_assoc.
      split; [done|].
      change (SysMkdirAll (Dir path) :: new1)
        with ([SysMkdirAll (Dir path)] ++ new1).
      rewrite close_count_app, open_count_app, Hopen1, Hclose1.
      unfold close_count, open_count. simpl.
      split; [done|lia].
    + destruct (openOrAllocate_result _ _ _ _ _ _ Hrun) as (-> & _ & _).
      destruct (IH (files ++ [mkHandle path])
                   (if ex then true else checkHash) w2)
        as (new2 & Hcalls2 & Hrest).
      exists ([SysMkdirAll (Dir path)] ++ new1 ++ new2).
      rewrite Hcalls2, Hcalls1. unfold w1. cbn [calls].
      rewrite <- !app_assoc. split; [done|].
      destruct (prepareLoop faults mkdir_fails Join Dir where_ name fs
                  (files ++ [mkHandle path]) (if ex then true else checkHash)
                  w2).2 as [e|[files' c']].
      * destruct Hrest as [Hc Ho].
        rewrite !close_count_app, !open_count_app, Hopen1, Hclose1, Hc.
        unfold close_count at 1, open_count at 1. simpl. split; [done|lia].
      * destruct Hrest as (Hc & Ho & Hpaths).
        rewrite !close_count_app, !open_count_app, Hopen1, Hclose1, Hc, Ho.
        unfold close_count, open_count. simpl. split_and!; [done|done|].
        rewrite Hpaths, map_app. simpl. by rewrite <- app_assoc.
Qed.

(** The paths [prepareFiles] works on, in the order of the torrent. *)
Lemma prepareFiles_calls info where_ w :
  exists new,
    calls (prepareFiles faults mkdir_fails Join Dir info where_ w).1
      = calls w ++ new /\
    match (prepareFiles faults mkdir_fails Join Dir info where_ w).2 with
    | inl e =>
        close_count new = (if after_open e then 1 else 0)%nat /\
        (open_count new
         <= if MultiFile info then List.length (Files info) else 1)%nat
    | inr (files, _) =>
        close_count new = 0%nat /\
        open_count new = List.length files /\
        map h_path files
          = if MultiFile info
            then map (fun f => Join ([where_; Name info] ++ fd_Path f))
                     (Files info)
            else [Join [where_; Name info]]
    end.
Proof.
  unfold prepareFiles. destruct (MultiFile info); simpl.
  - destruct (prepareLoop_calls where_ (Name info) (Files info) [] false w)
      as (new & Hcalls & Hrest).
    exists new. split; [done|].
    destruct (prepareLoop faults mkdir_fails Join Dir where_ (Name info)
                (Files info) [] false w).2 as [e|[files c]]; [done|].
    destruct Hrest as (Hc & Ho & Hp). split_and!; [done| |done].
    rewrite Ho. apply (f_equal (@List.length string)) in Hp.
    simpl in Hp. by rewrite !List.length_map in Hp.
  - destruct (openOrAllocate_trace w (Join [where_; Name info])
                (Length info)) as (new & Hcalls & _ & Hopen & Hclose).
    unfold bind.
    destruct (openOrAllocate faults (Join [where_; Name info]) (Length info) w)
      as [w2 [e|[h ex]]] eqn:Hrun; cbn [fst snd] in *.
    + exists new. split; [done|]. split; [done|lia].
    + destruct (openOrAllocate_result _ _ _ _ _ _ Hrun) as (-> & _ & _).
      exists new. unfold ret. simpl. by split_and!.
Qed.


(** X8: when [prepareFiles] succeeds it returns one handle per declared
    file, in the order of the torrent and each on the joined path; it has
    opened each of them once. *)
Theorem prepareFiles_handles info where_ w w' files checkHash :
  prepareFiles faults mkdir_fails Join Dir info where_ w
    = (w', inr (files, checkHash)) ->
  map h_path files
    = (if MultiFile info
       then map (fun f => Join ([where_; Name info] ++ fd_Path f)) (Files info)
       else [Join [where_; Name info]]) /\
  exists new, calls w' = calls w ++ new /\
              open_count new = List.length files /\
              close_count new = 0%nat.
Proof.
  intros Hrun.
  destruct (prepareFiles_calls info where_ w) as (new & Hcalls & Hrest).
  rewrite Hrun in Hcalls, Hrest. cbn [fst snd] in *.
  destruct Hrest as (Hc & Ho & Hp). split; [done|]. by exists new.
Qed.

(** X9: the multi-file loop stops at the first file that fails.  If the
    files before [f] are prepared and the turn for [f] fails, [prepareFiles]
    returns that error with the disk and the calls as they were at that
    moment, whatever files are declared after [f]: they are never opened. *)
Theorem prepareFiles_stops_at_first_failure
    info where_ pre f post w w1 files1 c1 w2 e :
  MultiFile info = true ->
  Files info = pre ++ f :: post ->
  prepareLoop faults mkdir_fails Join Dir where_ (Name info) pre [] false w
    = (w1, inr (files1, c1)) ->
  prepareLoop faults mkdir_fails Join Dir where_ (Name info) [f] files1 c1 w1
    = (w2, inl e) ->
  prepareFiles faults mkdir_fails Join Dir info where_ w = (w2, inl e).
Proof.
  intros Hm Hfiles Hpre Hstep. unfold prepareFiles. rewrite Hm, Hfiles. simpl.
  rewrite prepareLoop_app. unfold bind at 1. rewrite Hpre.
  change (f :: post) with ([f] ++ post).
  rewrite prepareLoop_app. unfold bind at 1. by rewrite Hstep.
Qed.

Lemma prepareLoop_fresh where_ name fs files checkHash w :
  NoDup (map (fun f => Join ([where_; name] ++ fd_Path f)) fs) ->
  Forall (fun f =>
            let path := Join ([where_; name] ++ fd_Path f) in
            disk w !! path = None /\ fd_Length f <> 0 /\
            faults path = no_faults /\ mkdir_fails (Dir path) = false) fs ->
  exists w',
    prepareLoop faults mkdir_fails Join Dir where_ name fs files checkHash w
      = (w', inr (files ++ map (fun f => mkHandle
                                  (Join ([where_; name] ++ fd_Path f))) fs,
                  checkHash)) /\
    (forall f, f ∈ fs ->
       disk w' !! Join ([where_; name] ++ fd_Path f) = Some (fd_Length f)) /\
    (forall p, p ∉ map (fun f => Join ([where_; name] ++ fd_Path f)) fs ->
       disk w' !! p = disk w !! p).
Proof.
  revert files w. induction fs as [|f fs IH]; intros files w Hnd Hall.
  - exists w. simpl. rewrite app_nil_r. split_and!; [done| |done].
    intros f Hf. by apply elem_of_nil in Hf.
  - apply NoDup_cons in Hnd as [Hnotin Hnd].
    apply Forall_cons in Hall as [(Hnone & Hlen & Hio & Hmk) Hall].
    rewrite prepareLoop_cons. cbv zeta. cbv zeta in Hmk, Hio, Hnone.
    rewrite Hmk.
    rewrite openOrAllocate_allocates;
      [| done | by unfold size_at_stat; cbn [disk]; rewrite Hnone | done].
    cbn [disk calls].
    set (path := Join ([where_; name] ++ fd_Path f)) in *.
    set (w2 := mkWorld (<[path := fd_Length f]> (disk w)) _).
    destruct (IH (files ++ [mkHandle path]) w2 Hnd) as (w' & Hrun & Hin & Hout).
    { apply Forall_forall. intros g Hg.
      rewrite Forall_forall in Hall. destruct (Hall g Hg) as (Hgn & ? & ? & ?).
      cbv zeta. split_and!; try done.
      unfold w2. cbn [disk]. rewrite lookup_insert_ne; [done|].
      intros Heq. apply Hnotin. rewrite Heq.
      apply list_elem_of_fmap. by exists g. }
    exists w'. split_and!.
    + rewrite Hrun. simpl. by rewrite <- app_assoc.
    + intros g Hg. apply elem_of_cons in Hg as [->|Hg]; [|by apply Hin].
      rewrite Hout by done. unfold w2. cbn [disk]. apply lookup_insert_eq.
    + intros p Hp. simpl in Hp. apply not_elem_of_cons in Hp as [Hne Hp].
      rewrite Hout by done. unfold w2. cbn [disk].
      by rewrite lookup_insert_ne.
Qed.

(** X10: a multi-file torrent none of whose files exists yet (nonzero
    declared lengths, distinct paths, no call failing) is prepared in full:
    every declared file ends up on disk with its declared length, every other
    file is as before, and [checkHash] is false, so a fresh download is not
    hash-checked. *)
Theorem prepareFiles_fresh_download info where_ w :
  MultiFile info = true ->
  NoDup (map (fun f => Join ([where_; Name info] ++ fd_Path f)) (Files info)) ->
  Forall (fun f =>
            let path := Join ([where_; Name info] ++ fd_Path f) in
            disk w !! path = None /\ fd_Length f <> 0 /\
            faults path = no_faults /\ mkdir_fails (Dir path) = false)
         (Files info) ->
  exists w',
    prepareFiles faults mkdir_fails Join Dir info where_ w
      = (w', inr (map (fun f => mkHandle
                         (Join ([where_; Name info] ++ fd_Path f)))
                      (Files info), false)) /\
    (forall f, f ∈ Files info ->
       disk w' !! Join ([where_; Name info] ++ fd_Path f)
         = Some (fd_Length f)) /\
    (forall p,
       p ∉ map (fun f => Join ([where_; Name info] ++ fd_Path f)) (Files info) ->
       disk w' !! p = disk w !! p).
Proof.
  intros Hm Hnd Hall. unfold prepareFiles. rewrite Hm. simpl.
  by apply (prepareLoop_fresh where_ (Name info) (Files info) [] false w).
Qed.

End FilePreparerFailures.

(** *** The file preparer under failures, on concrete disks *)

Section FilePreparerFailureExamples.

Import FilePreparer.

Lemma openOrAllocate_other_files_untouched_witness :
  disk (openOrAllocate sync_breaks "dl/a.iso" 1000
          (disk_with "dl/b.iso" 7)).1 !! "dl/b.iso" = Some 7.
Proof.
  rewrite (openOrAllocate_other_files_untouched sync_breaks
             (disk_with "dl/b.iso" 7) "dl/a.iso" 1000 "dl/b.iso");
    [reflexivity | discriminate].
Defined.

Lemma openOrAllocate_keeps_nonempty_file_witness :
  disk (openOrAllocate sync_breaks "dl/a.iso" 1000
          (disk_with "dl/a.iso" 900)).1 !! "dl/a.iso" = Some 900.
Proof.
  apply (openOrAllocate_keeps_nonempty_file sync_breaks
           (disk_with "dl/a.iso" 900) "dl/a.iso" 1000 900);
    [reflexivity | lia].
Defined.

Lemma openOrAllocate_success_witness :
  mkHandle "dl/a.iso" = mkHandle "dl/a.iso" /\
  disk allocated !! "dl/a.iso" = Some 1000 /\
  false = negb ((size_at_stat empty_disk "dl/a.iso" =? 0) && negb (1000 =? 0)).
Proof.
  apply (openOrAllocate_success all_ok empty_disk "dl/a.iso" 1000 allocated).
  reflexivity.
Defined.

Lemma openOrAllocate_again_witness :
  openOrAllocate all_ok "dl/a.iso" 1000 allocated
  = (mkWorld (disk allocated)
             (calls allocated ++ [SysOpen "dl/a.iso"; SysStat "dl/a.iso"]),
     inr (mkHandle "dl/a.iso", true)).
Proof.
  apply (openOrAllocate_again all_ok empty_disk "dl/a.iso" 1000 allocated
           (mkHandle "dl/a.iso") false); reflexivity.
Defined.

Lemma openOrAllocate_failure_leaves_file_witness :
  (openOrAllocate sync_breaks "dl/a.iso" 1000 empty_disk).2
    = inl (ErrSync "dl/a.iso") /\
  disk (openOrAllocate sync_breaks "dl/a.iso" 1000 empty_disk).1 !! "dl/a.iso"
    = Some 1000 /\
  (openOrAllocate (fun _ => no_faults) "dl/a.iso" 1000
     (openOrAllocate sync_breaks "dl/a.iso" 1000 empty_disk).1).2
    = inr (mkHandle "dl/a.iso", true).
Proof.
  apply (openOrAllocate_failure_leaves_file sync_breaks empty_disk
           "dl/a.iso" 1000); (reflexivity || lia).
Defined.

Lemma prepareFiles_handles_witness :
  map h_path [mkHandle "dl/album/a.flac"; mkHandle "dl/album/cd2/b.flac"]
    = map (fun f => join_slash (["dl"; Name album] ++ fd_Path f)) (Files album) /\
  exists new,
    calls album_prepared = calls empty_disk ++ new /\
    open_count new = 2%nat /\ close_count new = 0%nat.
Proof.
  apply (prepareFiles_handles all_ok mkdir_ok join_slash dir_of album "dl"
           empty_disk album_prepared
           [mkHandle "dl/album/a.flac"; mkHandle "dl/album/cd2/b.flac"] false).
  reflexivity.
Defined.

(** The second file of [album] cannot be prepared: the first stays open. *)
Lemma prepareFiles_stops_at_first_failure_witness :
  prepareFiles all_ok no_cd2 join_slash dir_of album "dl" empty_disk
    = (mkWorld (<["dl/album/a.flac" := 10]> ∅)
               [SysMkdirAll "dl/album/a.flac"; SysOpen "dl/album/a.flac";
                SysStat "dl/album/a.flac"; SysTruncate "dl/album/a.flac" 10;
                SysSync "dl/album/a.flac";
                SysMkdirAll "dl/album/cd2/b.flac"],
       inl (ErrMkdirAll "dl/album/cd2/b.flac")).
Proof.
  apply (prepareFiles_stops_at_first_failure all_ok no_cd2 join_slash dir_of
           album "dl" [mkFileDict 10 ["a.flac"]]
           (mkFileDict 20 ["cd2"; "b.flac"]) []
           empty_disk
           (mkWorld (<["dl/album/a.flac" := 10]> ∅)
               [SysMkdirAll "dl/album/a.flac"; SysOpen "dl/album/a.flac";
                SysStat "dl/album/a.flac"; SysTruncate "dl/album/a.flac" 10;
                SysSync "dl/album/a.flac"])
           [mkHandle "dl/album/a.flac"] false);
    reflexivity.
Defined.

Lemma prepareFiles_fresh_download_witness :
  exists w',
    prepareFiles all_ok mkdir_ok join_slash dir_of album "dl" empty_disk
      = (w', inr ([mkHandle "dl/album/a.flac";
                   mkHandle "dl/album/cd2/b.flac"], false)) /\
    (forall f, f ∈ Files album ->
       disk w' !! join_slash (["dl"; Name album] ++ fd_Path f)
         = Some (fd_Length f)) /\
    (forall p,
       p ∉ map (fun f => join_slash (["dl"; Name album] ++ fd_Path f))
               (Files album) ->
       disk w' !! p = disk empty_disk !! p).
Proof.
  apply (prepareFiles_fresh_download all_ok mkdir_ok join_slash dir_of album
           "dl" empty_disk).
  - reflexivity.
  - apply (bool_decide_unpack _). vm_compute. exact I.
  - repeat constructor; simpl; lia.
Defined.

End FilePreparerFailureExamples.

(** ** [newTransfer] *)

Section NewTransferFacts.

Import bitfield rain.

Variable faults : string -> FilePreparer.Faults.
Variable mkdir_fails : string -> bool.
Variable Join : list string -> string.
Variable Dir : string -> string.
Variable trackerNew : string -> option string.
Variable newPieces : FilePreparer.Info -> list FilePreparer.Handle -> list piece.
Variable hashCheck : piece -> string + bool.

(** Setting a bit that lies within the bytes sets that bit and no other. *)
Lemma Test_Set bf j i :
  (j / 8 < List.length (b bf))%nat ->
  Test (Set_ bf j) i = Test bf i || bool_decide (i = j).
Proof.
  intros Hj. unfold Test, Set_. cbn [b].
  destruct (decide (i / 8 = j / 8)%nat) as [Hdiv|Hdiv].
  - rewrite Hdiv, list_lookup_alter_eq.
    destruct (lookup_lt_is_Some_2 (b bf) (j / 8)%nat Hj) as [byte Hbyte].
    rewrite Hbyte. cbn [fmap option_fmap option_map]. rewrite Z.lor_spec.
    f_equal.
    unfold bit_mask. rewrite Z.shiftl_1_l, Z.pow2_bits_eqb by lia.
    pose proof (Nat.div_mod_eq i 8). pose proof (Nat.div_mod_eq j 8).
    pose proof (Nat.mod_upper_bound i 8). pose proof (Nat.mod_upper_bound j 8).
    case_bool_decide as Hij.
    + subst. apply Z.eqb_refl.
    + apply Z.eqb_neq. lia.
  - rewrite list_lookup_alter_ne by done.
    rewrite bool_decide_eq_false_2 by congruence.
    by rewrite orb_false_r.
Qed.

Lemma Set_bytes bf j : List.length (b (Set_ bf j)) = List.length (b bf).
Proof. unfold Set_. cbn [b]. apply length_alter. Qed.

(** The hash-check loop when no check fails with an error. *)
Lemma checkPieces_all_checked ps bf :
  Forall (fun p => (index p / 8 < List.length (b bf))%nat) ps ->
  Forall (fun p => exists ok, hashCheck p = inr ok) ps ->
  exists bf',
    checkPieces hashCheck ps bf = (map index ps, inr bf') /\
    (List.length (b bf') = List.length (b bf) /\ length bf' = length bf) /\
    forall i, Test bf' i = Test bf i || verified hashCheck ps i.
Proof.
  revert bf. induction ps as [|p ps IH]; intros bf Hrange Hok.
  - exists bf. simpl. split_and!; [done|done|done|].
    intros i. by rewrite orb_false_r.
  - apply Forall_cons in Hrange as [Hp Hrange].
    apply Forall_cons in Hok as [[ok Hck] Hok].
    simpl. rewrite Hck.
    destruct (IH (if ok then Set_ bf (index p) else bf))
      as (bf' & Hrun & [Hlen Hfield] & Hbits).
    { destruct ok; [|done]. eapply Forall_impl; [exact Hrange|].
      intros q Hq. simpl in Hq. by rewrite Set_bytes. }
    { done. }
    exists bf'. rewrite Hrun. split_and!; [done| | |].
    + rewrite Hlen. destruct ok; [apply Set_bytes|done].
    + rewrite Hfield. by destruct ok.
    + intros i. rewrite Hbits. unfold verified. simpl.
      destruct ok.
      * rewrite Test_Set by done. rewrite andb_true_r.
        rewrite (bool_decide_ext (index p = i) (i = index p)) by done.
        by rewrite orb_assoc.
      * by rewrite andb_false_r.
Qed.

(** The hash-check loop stops at the first check that fails with an error. *)
Lemma checkPieces_stops pre p post bf err :
  Forall (fun q => exists ok, hashCheck q = inr ok) pre ->
  hashCheck p = inl err ->
  checkPieces hashCheck (pre ++ p :: post) bf
    = (map index (pre ++ [p]), inl err).
Proof.
  revert bf. induction pre as [|q pre IH]; intros bf Hok Herr.
  - simpl. by rewrite Herr.
  - apply Forall_cons in Hok as [[ok Hq] Hok]. simpl. rewrite Hq.
    by rewrite IH.
Qed.

Lemma bit_within_bytes i n :
  (i < n)%nat -> (i / 8 < List.length (b (New n)))%nat.
Proof.
  intros Hi. unfold New. cbn [b]. rewrite length_replicate.
  apply Nat.lt_le_trans with ((i + 1 * 8) / 8)%nat.
  - rewrite Nat.div_add by lia. lia.
  - apply Nat.Div0.div_le_mono. lia.
Qed.

(** X27: [newTransfer] fails in this order and does no more than it has to.
    If [tracker.New] fails nothing on disk is touched; if [prepareFiles]
    fails no piece is hashed; and if hashing is required and a piece fails to
    hash with an error, that error is returned and the pieces after it are
    not hashed (the pieces before it have their index within the
    bitfield). *)
Theorem newTransfer_failures tor where_ w :
  (forall err, trackerNew (Announce tor) = Some err ->
     newTransfer faults mkdir_fails Join Dir trackerNew newPieces hashCheck
                 tor where_ w = (w, [], inl (ErrTracker err))) /\
  (trackerNew (Announce tor) = None ->
   (forall w' e,
      FilePreparer.prepareFiles faults mkdir_fails Join Dir (Info tor) where_ w
        = (w', inl e) ->
      newTransfer faults mkdir_fails Join Dir trackerNew newPieces hashCheck
                  tor where_ w = (w', [], inl (ErrPrepare e))) /\
   (forall w' files pre p post err,
      FilePreparer.prepareFiles faults mkdir_fails Join Dir (Info tor) where_ w
        = (w', inr (files, true)) ->
      newPieces (Info tor) files = pre ++ p :: post ->
      Forall (fun q => (index q < List.length (pre ++ p :: post))%nat) pre ->
      Forall (fun q => exists ok, hashCheck q = inr ok) pre ->
      hashCheck p = inl err ->
      newTransfer faults mkdir_fails Join Dir trackerNew newPieces hashCheck
                  tor where_ w
        = (w', map index (pre ++ [p]), inl (ErrHashCheck err)))).
Proof.
  unfold newTransfer. split.
  - by intros err ->.
  - intros ->. split.
    + by intros w' e ->.
    + intros w' files pre p post err -> Hps _ Hok Herr.
      cbv zeta. rewrite Hps. by rewrite (checkPieces_stops pre p post _ err).
Qed.

(** X28: a single-file torrent whose file does not exist yet (nonzero
    declared length, no call failing): [newTransfer] allocates the file,
    hashes no piece at all, and starts from a bitfield with one bit per piece
    and none set, so that [Downloaded] is 0. *)
Theorem newTransfer_fresh_download tor where_ w :
  trackerNew (Announce tor) = None ->
  FilePreparer.MultiFile (Info tor) = false ->
  FilePreparer.disk w !! Join [where_; FilePreparer.Name (Info tor)] = None ->
  FilePreparer.Length (Info tor) <> 0 ->
  faults (Join [where_; FilePreparer.Name (Info tor)]) = FilePreparer.no_faults ->
  let path := Join [where_; FilePreparer.Name (Info tor)] in
  let pieces := newPieces (Info tor) [FilePreparer.mkHandle path] in
  exists w',
    newTransfer faults mkdir_fails Join Dir trackerNew newPieces hashCheck
                tor where_ w
      = (w', [],
         inr (mkNewTransfer [FilePreparer.mkHandle path] pieces
                            (New (List.length pieces))
                            (logName (FilePreparer.Name (Info tor))))) /\
    FilePreparer.disk w' !! path = Some (FilePreparer.Length (Info tor)) /\
    (forall i, (i < List.length pieces)%nat ->
               Test (New (List.length pieces)) i = false) /\
    Downloaded (New (List.length pieces)) pieces = Some 0.
Proof.
  intros Htr Hsingle Hnone Hlen Hio path pieces.
  set (w1 := FilePreparer.mkWorld
            (<[path := FilePreparer.Length (Info tor)]> (FilePreparer.disk w))
            (FilePreparer.calls w
             ++ [FilePreparer.SysOpen path; FilePreparer.SysStat path;
                 FilePreparer.SysTruncate path (FilePreparer.Length (Info tor));
                 FilePreparer.SysSync path])).
  exists w1. split_and!.
  - unfold newTransfer. rewrite Htr.
    rewrite (prepareFiles_single faults mkdir_fails Join Dir (Info tor) where_
               w w1 (FilePreparer.mkHandle path) false Hsingle).
    + done.
    + apply openOrAllocate_allocates; [done| |done].
      unfold FilePreparer.size_at_stat, path. by rewrite Hnone.
  - simpl. apply lookup_insert_eq.
  - intros i _. apply Test_New.
  - apply (Downloaded_of_New _ pieces 0).
Qed.

(** X29: resuming.  When [prepareFiles] asks for a hash check and no check
    fails with an error, [newTransfer] hashes every piece once, in order, and
    returns a bitfield with one bit per piece in which bit [i] is set exactly
    when a piece of index [i] passed its check. *)
Theorem newTransfer_resume tor where_ w w' files :
  trackerNew (Announce tor) = None ->
  FilePreparer.prepareFiles faults mkdir_fails Join Dir (Info tor) where_ w
    = (w', inr (files, true)) ->
  Forall (fun p => (index p < List.length (newPieces (Info tor) files))%nat)
         (newPieces (Info tor) files) ->
  Forall (fun p => exists ok, hashCheck p = inr ok)
         (newPieces (Info tor) files) ->
  exists bf,
    newTransfer faults mkdir_fails Join Dir trackerNew newPieces hashCheck
                tor where_ w
      = (w', map index (newPieces (Info tor) files),
         inr (mkNewTransfer files (newPieces (Info tor) files) bf
                            (logName (FilePreparer.Name (Info tor))))) /\
    length bf = List.length (newPieces (Info tor) files) /\
    forall i, (i < length bf)%nat ->
              Test bf i = verified hashCheck (newPieces (Info tor) files) i.
Proof.
  intros Htr Hprep Hrange Hok.
  destruct (checkPieces_all_checked (newPieces (Info tor) files)
              (New (List.length (newPieces (Info tor) files))))
    as (bf & Hrun & [_ Hfield] & Hbits).
  { eapply Forall_impl; [exact Hrange|]. intros p Hp. simpl in Hp.
    by apply bit_within_bytes. }
  { done. }
  exists bf. split_and!.
  - unfold newTransfer. rewrite Htr, Hprep. cbv zeta. by rewrite Hrun.
  - by rewrite Hfield.
  - intros i _. by rewrite Hbits, Test_New.
Qed.

Lemma substring_prefix n s :
  exists rest,
    s = String.append (String.substring 0 n s) rest /\
    String.length (String.substring 0 n s) = Nat.min n (String.length s).
Proof.
  revert s. induction n as [|n IH]; intros [|c s]; simpl.
  - by exists EmptyString.
  - by exists (String c s).
  - by exists EmptyString.
  - destruct (IH s) as (rest & Hs & Hl). exists rest.
    split; [|by rewrite Hl].
    change (String c s = String c (String.append (String.substring 0 n s) rest)).
    by rewrite <- Hs.
Qed.

Lemma length_append s1 s2 :
  String.length (String.append s1 s2)
  = (String.length s1 + String.length s2)%nat.
Proof. induction s1 as [|c s1 IH]; simpl; [done|]. by rewrite IH. Qed.

(** X30: the name [newTransfer] gives to the logger is ["download "]
    followed by the first 8 bytes of the torrent name, or by the whole name
    when it has at most 8 bytes; it is never longer than 17 bytes. *)
Theorem logName_keeps_eight_bytes name :
  exists pre rest,
    logName name = String.append "download " pre /\
    name = String.append pre rest /\
    String.length pre = Nat.min 8 (String.length name) /\
    (String.length (logName name) <= 17)%nat.
Proof.
  unfold logName. destruct (8 <? String.length name)%nat eqn:Hlong.
  - destruct (substring_prefix 8 name) as (rest & Hname & Hlen).
    exists (String.substring 0 8 name), rest. split_and!; [done|done|done|].
    rewrite length_append, Hlen.
    change (String.length "download ") with 9%nat. lia.
  - apply Nat.ltb_ge in Hlong. exists name, EmptyString. split_and!.
    + done.
    + clear Hlong. induction name as [|c s IH]; [done|].
      change (String c s = String c (String.append s EmptyString)).
      by rewrite <- IH.
    + lia.
    + rewrite length_append.
      change (String.length "download ") with 9%nat. lia.
Qed.

End NewTransferFacts.

Section NewTransferExamples.

Import bitfield rain.

Lemma newTransfer_fresh_download_witness :
  exists w',
    newTransfer all_ok mkdir_ok join_slash dir_of tracker_ok
                pieces_of second_only image "dl" empty_disk
      = (w', [],
         inr (mkNewTransfer [FilePreparer.mkHandle "dl/a.iso"] two_pieces
                            (New 2) "download a.iso")) /\
    FilePreparer.disk w' !! "dl/a.iso" = Some 17384 /\
    (forall i, (i < List.length two_pieces)%nat -> Test (New 2) i = false) /\
    Downloaded (New 2) two_pieces = Some 0.
Proof.
  apply (newTransfer_fresh_download all_ok mkdir_ok join_slash dir_of
           tracker_ok pieces_of second_only image "dl" empty_disk).
  - reflexivity.
  - reflexivity.
  - reflexivity.
  - simpl. lia.
  - reflexivity.
Defined.

(** The file is there with the right size: both pieces are hashed and the
    bitfield holds the one that passed. *)
Lemma newTransfer_resume_witness :
  exists bf,
    newTransfer all_ok mkdir_ok join_slash dir_of tracker_ok pieces_of
                second_only image "dl" (disk_with "dl/a.iso" 17384)
      = (FilePreparer.mkWorld {[ "dl/a.iso" := 17384 ]}
           [FilePreparer.SysOpen "dl/a.iso"; FilePreparer.SysStat "dl/a.iso"],
         map index (pieces_of (Info image) [FilePreparer.mkHandle "dl/a.iso"]),
         inr (mkNewTransfer [FilePreparer.mkHandle "dl/a.iso"]
                (pieces_of (Info image) [FilePreparer.mkHandle "dl/a.iso"]) bf
                (logName (FilePreparer.Name (Info image))))) /\
    length bf
      = List.length (pieces_of (Info image) [FilePreparer.mkHandle "dl/a.iso"]) /\
    forall i, (i < length bf)%nat ->
              Test bf i
              = verified second_only
                  (pieces_of (Info image) [FilePreparer.mkHandle "dl/a.iso"]) i.
Proof.
  apply (newTransfer_resume all_ok mkdir_ok join_slash dir_of tracker_ok
           pieces_of second_only image "dl" (disk_with "dl/a.iso" 17384)).
  - reflexivity.
  - reflexivity.
  - repeat constructor; simpl; lia.
  - repeat constructor; by eexists.
Defined.

(** The second piece cannot be read: the transfer is not created. *)
Lemma newTransfer_failures_witness :
  newTransfer all_ok mkdir_ok join_slash dir_of tracker_ok pieces_of
              unreadable_second image "dl" (disk_with "dl/a.iso" 17384)
    = (FilePreparer.mkWorld {[ "dl/a.iso" := 17384 ]}
         [FilePreparer.SysOpen "dl/a.iso"; FilePreparer.SysStat "dl/a.iso"],
       map index ([mkPiece 0 16384] ++ [mkPiece 1 1000]),
       inl (ErrHashCheck "read error")).
Proof.
  apply (proj2 (proj2 (newTransfer_failures all_ok mkdir_ok join_slash dir_of
                         tracker_ok pieces_of unreadable_second image "dl"
                         (disk_with "dl/a.iso" 17384)) eq_refl)
           (FilePreparer.mkWorld {[ "dl/a.iso" := 17384 ]}
              [FilePreparer.SysOpen "dl/a.iso"; FilePreparer.SysStat "dl/a.iso"])
           [FilePreparer.mkHandle "dl/a.iso"]
           [mkPiece 0 16384] (mkPiece 1 1000) [] "read error").
  - reflexivity.
  - reflexivity.
  - repeat constructor; simpl; lia.
  - repeat constructor; by eexists.
  - reflexivity.
Defined.

End NewTransferExamples.

(** ** Facts about the outbound dialer *)

Section DialerFacts.

Import dialer.

(** Changing one element of a list changes a count by what the element
    contributed before and after. *)
Lemma count_alter {A} (f : A -> bool) (g : A -> A) (l : list A) (i : nat) (x : A) :
  l !! i = Some x ->
  (List.length (List.filter f (alter g i l)) + (if f x then 1 else 0)
   = List.length (List.filter f l) + (if f (g x) then 1 else 0))%nat.
Proof.
  revert i. induction l as [|y l IH]; intros i Hi; [done|].
  destruct i as [|i]; simpl in *.
  - assert (y = x) as -> by congruence.
    destruct (f x), (f (g x)); simpl; lia.
  - specialize (IH i Hi).
    unfold alter in IH.
    destruct (f y), (f x), (f (g x)); simpl in *; lia.
Qed.

Lemma count_le {A} (f g : A -> bool) (l : list A) :
  (forall x, f x = true -> g x = true) ->
  (List.length (List.filter f l) <= List.length (List.filter g l))%nat.
Proof.
  intros Hfg. induction l as [|y l IH]; simpl; [lia|].
  destruct (f y) eqn:Hf.
  - rewrite (Hfg _ Hf). simpl. lia.
  - destruct (g y); simpl; lia.
Qed.

Lemma balanced_init candidates : balanced (init candidates).
Proof. split; simpl; [unfold maxDial; lia | done]. Qed.

Lemma balanced_step l s s' :
  balanced s -> step l s = Some s' -> balanced s'.
Proof.
  intros [Hcap Hbal] Hstep. unfold balanced, unreleased in *.
  destruct l; simpl in Hstep.
  - (* SendLimiter *)
    destruct (loc s) eqn:Hloc; try done.
    destruct (limiter s <? maxDial)%nat eqn:Hlt; [|done].
    apply Nat.ltb_lt in Hlt. injection Hstep as <-. simpl in *. lia.
  - (* RecvAddr *)
    destruct (loc s) eqn:Hloc; try done.
    destruct (peerList s) as [|addr rest]; [done|].
    injection Hstep as <-. simpl in *.
    rewrite List.filter_app, List.length_app. simpl. lia.
  - (* RecvStop *)
    destruct (stopC s); [|done].
    destruct (loc s) eqn:Hloc; try done; injection Hstep as <-; simpl in *; lia.
  - (* CloseStop *)
    injection Hstep as <-. simpl. lia.
  - (* AddPeer *)
    injection Hstep as <-. simpl. lia.
  - (* WorkerReturns *)
    destruct (workers s !! i) as [[addr ws]|] eqn:Hw; [|done].
    destruct ws; try done. injection Hstep as <-. simpl.
    pose proof (count_alter holds_slot (fun w => (fst w, Finished)) _ _ _ Hw) as Hc.
    simpl in Hc. lia.
  - (* OnFinish *)
    destruct (workers s !! i) as [[addr ws]|] eqn:Hw; [|done].
    destruct ws; try done.
    destruct (limiter s) as [|n] eqn:Hlim; [done|].
    injection Hstep as <-. simpl.
    pose proof (count_alter holds_slot (fun w => (fst w, Released)) _ _ _ Hw) as Hc.
    simpl in Hc. lia.
Qed.

Lemma balanced_exec tr s s' :
  balanced s -> exec tr s = Some s' -> balanced s'.
Proof.
  revert s. induction tr as [|l tr IH]; intros s Hs Hex; simpl in Hex.
  - by injection Hex as <-.
  - destruct (step l s) as [s1|] eqn:Hstep; [|done].
    eapply IH; [|exact Hex]. by eapply balanced_step.
Qed.

Lemma running_le_unreleased s : (running s <= unreleased s)%nat.
Proof.
  apply count_le. intros [addr ws]. unfold is_running, holds_slot; simpl.
  by destruct ws.
Qed.

(** C1: whatever the scheduler does and however many candidate addresses
    there are, the number of slots taken from the dial limiter and not yet
    given back is between 0 and 40, and so is the number of dial workers
    running at the same time. *)
Theorem in_flight_dials_bounded candidates tr s :
  exec tr (init candidates) = Some s ->
  (0 <= limiter s <= 40)%nat /\ (running s <= 40)%nat.
Proof.
  intros Hex.
  destruct (balanced_exec tr _ _ (balanced_init candidates) Hex) as [Hcap Hbal].
  pose proof (running_le_unreleased s). unfold maxDial in Hcap. lia.
Qed.

Lemma step_released_count l s s' i :
  step l s = Some s' ->
  released_count s' i
  = (released_count s i + if decide (l = OnFinish i) then 1 else 0)%nat.
Proof.
  intros Hstep. unfold released_count.
  destruct (decide (l = OnFinish i)) as [->|Hne]; simpl in Hstep.
  { destruct (workers s !! i) as [[addr ws]|] eqn:Hw; [|done].
    destruct ws; try done.
    destruct (limiter s) as [|n]; [done|].
    injection Hstep as <-. simpl.
    by rewrite list_lookup_alter_eq, Hw. }
  rewrite Nat.add_0_r.
  destruct l; simpl in Hstep.
  - destruct (loc s); try done.
    destruct (limiter s <? maxDial)%nat; [|done].
    by injection Hstep as <-.
  - destruct (loc s); try done.
    destruct (peerList s) as [|addr rest]; [done|].
    injection Hstep as <-. simpl.
    destruct (decide (i < List.length (workers s))%nat) as [Hlt|Hge].
    + by rewrite lookup_app_l.
    + rewrite lookup_app_r by lia.
      rewrite (lookup_ge_None_2 (workers s) i) by lia.
      by destruct (i - List.length (workers s))%nat as [|k].
  - destruct (stopC s); [|done].
    destruct (loc s); try done; by injection Hstep as <-.
  - by injection Hstep as <-.
  - by injection Hstep as <-.
  - destruct (workers s !! i0) as [[addr ws]|] eqn:Hw; [|done].
    destruct ws; try done. injection Hstep as <-. simpl.
    destruct (decide (i0 = i)) as [->|Hi].
    + by rewrite list_lookup_alter_eq, Hw.
    + by rewrite list_lookup_alter_ne.
  - destruct (workers s !! i0) as [[addr ws]|] eqn:Hw; [|done].
    destruct ws; try done.
    destruct (limiter s) as [|n]; [done|].
    injection Hstep as <-. simpl.
    rewrite list_lookup_alter_ne; [done|congruence].
Qed.

Lemma exec_released_count tr s s' i :
  exec tr s = Some s' ->
  released_count s' i = (released_count s i + releases i tr)%nat.
Proof.
  revert s. induction tr as [|l tr IH]; intros s Hex; simpl in Hex.
  - injection Hex as <-. unfold releases. simpl. lia.
  - destruct (step l s) as [s1|] eqn:Hstep; [|done].
    rewrite (IH _ Hex), (step_released_count _ _ _ i Hstep).
    unfold releases. rewrite filter_cons.
    destruct (decide (l = OnFinish i)); simpl; lia.
Qed.

Lemma step_acquisitions l s s' :
  step l s = Some s' ->
  (List.length (workers s') + held (loc s')
   = List.length (workers s) + held (loc s)
     + if decide (l = SendLimiter) then 1 else 0)%nat.
Proof.
  intros Hstep.
  destruct (decide (l = SendLimiter)) as [->|Hne]; simpl in Hstep.
  { destruct (loc s) eqn:Hloc; try done.
    destruct (limiter s <? maxDial)%nat; [|done].
    injection Hstep as <-. simpl. lia. }
  rewrite Nat.add_0_r.
  destruct l; simpl in Hstep; [done| | | | | |].
  - destruct (loc s) eqn:Hloc; try done.
    destruct (peerList s) as [|addr rest]; [done|].
    injection Hstep as <-. simpl. rewrite List.length_app. simpl. lia.
  - destruct (stopC s); [|done].
    destruct (loc s) eqn:Hloc; try done; injection Hstep as <-; simpl; lia.
  - injection Hstep as <-. simpl. lia.
  - injection Hstep as <-. simpl. lia.
  - destruct (workers s !! i) as [[addr ws]|]; [|done].
    destruct ws; try done. injection Hstep as <-. simpl.
    rewrite length_alter. lia.
  - destruct (workers s !! i) as [[addr ws]|]; [|done].
    destruct ws; try done.
    destruct (limiter s) as [|n]; [done|].
    injection Hstep as <-. simpl. rewrite length_alter. lia.
Qed.

Lemma exec_acquisitions tr s s' :
  exec tr s = Some s' ->
  (List.length (workers s') + held (loc s')
   = List.length (workers s) + held (loc s) + acquisitions tr)%nat.
Proof.
  revert s. induction tr as [|l tr IH]; intros s Hex; simpl in Hex.
  - injection Hex as <-. unfold acquisitions. simpl. lia.
  - destruct (step l s) as [s1|] eqn:Hstep; [|done].
    rewrite (IH _ Hex), (step_acquisitions _ _ _ Hstep).
    unfold acquisitions. rewrite filter_cons.
    destruct (decide (l = SendLimiter)); simpl; lia.
Qed.

(** A finished worker's callback finds a value in [limiter]: it is never
    blocked. *)
Lemma finished_worker_can_release s i addr :
  balanced s -> workers s !! i = Some (addr, Finished) ->
  is_Some (step (OnFinish i) s).
Proof.
  intros [_ Hbal] Hw. simpl. rewrite Hw.
  assert (0 < unreleased s)%nat as Hpos.
  { unfold unreleased.
    pose proof (count_alter holds_slot (fun w => (fst w, Released)) _ _ _ Hw) as Hc.
    simpl in Hc. lia. }
  destruct (limiter s); [lia | eauto].
Qed.

(** C2, as the code has it: every slot [Run] takes is either handed to
    exactly one dial worker or is the one [Run] holds at the inner [select];
    a worker's slot is given back by its on-finish callback, at most once,
    and exactly once when the callback has run; the callback of a finished
    worker is never blocked; so when every callback has run, [limiter] holds
    no slot if [Run] is at the outer [select] or returned from it, and the one
    slot [Run] took if it is at the inner [select] or returned from it. *)
Theorem slots_released_by_callbacks candidates tr s :
  exec tr (init candidates) = Some s ->
  (forall i, releases i tr = released_count s i /\ (releases i tr <= 1)%nat) /\
  acquisitions tr = (List.length (workers s) + held (loc s))%nat /\
  limiter s = (unreleased s + held (loc s))%nat /\
  (forall i addr, workers s !! i = Some (addr, Finished) ->
                  is_Some (step (OnFinish i) s)) /\
  (unreleased s = 0%nat -> limiter s = held (loc s)).
Proof.
  intros Hex.
  pose proof (balanced_exec tr _ _ (balanced_init candidates) Hex) as Hbal.
  assert (Hrel : forall i, releases i tr = released_count s i).
  { intros i. rewrite (exec_released_count tr _ _ i Hex).
    unfold released_count. simpl. by destruct i. }
  split_and!.
  - intros i. split; [apply Hrel|]. rewrite Hrel. unfold released_count.
    destruct (workers s !! i) as [[addr []]|]; lia.
  - pose proof (exec_acquisitions tr _ _ Hex) as Hacq. simpl in Hacq. lia.
  - apply Hbal.
  - intros i addr Hw. by eapply finished_worker_can_release.
  - intros Hz. destruct Hbal as [_ ->]. lia.
Qed.

(** Once [Run] has returned from the inner [select] with no worker started,
    nothing takes the slot out of [limiter] again. *)
Lemma leaked_slot_stays tr s s' :
  limiter s = 1%nat -> workers s = [] -> loc s = ReturnedInner ->
  exec tr s = Some s' ->
  limiter s' = 1%nat /\ workers s' = [] /\ loc s' = ReturnedInner.
Proof.
  revert s. induction tr as [|l tr IH]; intros s Hlim Hw Hloc Hex; simpl in Hex.
  - by injection Hex as <-.
  - destruct (step l s) as [s1|] eqn:Hstep; [|done].
    apply (IH s1); [| | |exact Hex];
      destruct l; simpl in Hstep; rewrite ?Hloc, ?Hw in Hstep;
      try destruct (stopC s); try done;
      try (injection Hstep as <-; done).
Qed.

End DialerFacts.

(** *** The dialer on concrete schedules *)

Section DialerExamples.

Import dialer.

Lemma full_house_reached : exec (dial 40) (init candidates41) = Some full_house.
Proof. vm_compute. reflexivity. Qed.

(** The bound is met and not passed: with 41 candidates, 40 workers
    run, and the 41st slot cannot be taken before a callback has run. *)
Lemma limiter_full_blocks_dialing :
  limiter full_house = 40%nat /\ running full_house = 40%nat /\
  step SendLimiter full_house = None /\
  exec [WorkerReturns 3; OnFinish 3; SendLimiter; RecvAddr] full_house
    = Some (mkState 40 []
              (alter (fun w => (fst w, Released)) 3%nat
                     (replicate 40 ("10.0.0.7:6881", Running))
               ++ [("10.0.0.7:6881", Running)])
              false OuterSelect).
Proof. vm_compute. done. Qed.

Lemma in_flight_dials_bounded_witness :
  (0 <= limiter full_house <= 40)%nat /\ (running full_house <= 40)%nat.
Proof.
  apply (in_flight_dials_bounded candidates41 (dial 40)).
  vm_compute. reflexivity.
Defined.

Lemma slots_released_by_callbacks_witness :
  (forall i, releases i one_dial = released_count after_one_dial i /\
             (releases i one_dial <= 1)%nat) /\
  acquisitions one_dial
    = (List.length (workers after_one_dial) + held (loc after_one_dial))%nat /\
  limiter after_one_dial
    = (unreleased after_one_dial + held (loc after_one_dial))%nat /\
  (forall i addr, workers after_one_dial !! i = Some (addr, Finished) ->
                  is_Some (step (OnFinish i) after_one_dial)) /\
  (unreleased after_one_dial = 0%nat ->
   limiter after_one_dial = held (loc after_one_dial)).
Proof.
  apply (slots_released_by_callbacks ["10.0.0.7:6881"] one_dial).
  reflexivity.
Defined.

(** C2 as the spec words it fails: [Run] takes a slot at the outer [select],
    the stop signal is observed at the inner [select], [Run] returns.  No
    worker was started, so no callback exists that would give the slot back:
    it stays in [limiter] whatever happens afterwards. *)
Lemma stop_at_inner_select_keeps_slot :
  exec [SendLimiter; CloseStop; RecvStop] (init [])
    = Some (mkState 1 [] [] true ReturnedInner) /\
  returned (loc (mkState 1 [] [] true ReturnedInner)) = true /\
  unreleased (mkState 1 [] [] true ReturnedInner) = 0%nat /\
  forall tr s, exec tr (mkState 1 [] [] true ReturnedInner) = Some s ->
               limiter s = 1%nat.
Proof.
  split_and!; [reflexivity | reflexivity | reflexivity |].
  intros tr s Hex.
  by destruct (leaked_slot_stays tr (mkState 1 [] [] true ReturnedInner) s
                 eq_refl eq_refl eq_refl Hex).
Qed.

End DialerExamples.

(** ** The dialer: addresses, shutdown and progress *)

Section DialerSchedules.

Import dialer.

Lemma map_fst_alter (ws : WorkerState) i (l : list (string * WorkerState)) :
  map fst (alter (fun w => (fst w, ws)) i l) = map fst l.
Proof.
  revert i. induction l as [|x l IH]; intros [|i]; simpl; try done.
  by rewrite <- (IH i).
Qed.

Lemma step_addresses l s s' :
  step l s = Some s' ->
  dialed s' ++ peerList s'
  = dialed s ++ peerList s
    ++ match l with AddPeer addr => [addr] | _ => [] end.
Proof.
  intros Hstep. unfold dialed. destruct l; simpl in Hstep.
  - destruct (loc s); try done.
    destruct (limiter s <? maxDial)%nat; [|done].
    injection Hstep as <-. simpl. by rewrite app_nil_r.
  - destruct (loc s); try done.
    destruct (peerList s) as [|addr rest] eqn:Hp; [done|].
    injection Hstep as <-. simpl.
    rewrite map_app, app_nil_r. simpl. by rewrite <- app_assoc.
  - destruct (stopC s); [|done].
    destruct (loc s); try done; injection Hstep as <-; simpl;
      by rewrite app_nil_r.
  - injection Hstep as <-. simpl. by rewrite app_nil_r.
  - injection Hstep as <-. simpl. done.
  - destruct (workers s !! i) as [[addr ws]|]; [|done].
    destruct ws; try done. injection Hstep as <-. simpl.
    by rewrite map_fst_alter, app_nil_r.
  - destruct (workers s !! i) as [[addr ws]|]; [|done].
    destruct ws; try done.
    destruct (limiter s) as [|n]; [done|].
    injection Hstep as <-. simpl.
    by rewrite map_fst_alter, app_nil_r.
Qed.

Lemma exec_addresses tr s s' :
  exec tr s = Some s' ->
  dialed s' ++ peerList s' = dialed s ++ peerList s ++ added tr.
Proof.
  revert s. induction tr as [|l tr IH]; intros s Hex; simpl in Hex.
  - injection Hex as <-. simpl. by rewrite app_nil_r.
  - destruct (step l s) as [s1|] eqn:Hstep; [|done].
    rewrite (IH _ Hex), app_assoc, (step_addresses _ _ _ Hstep).
    rewrite <- !app_assoc. do 2 f_equal.
    unfold added. by destruct l.
Qed.

(** X14: no address is lost, dialled twice or dialled out of turn: at every
    moment the addresses workers were started for, followed by the addresses
    still waiting in the peer list, are the initial candidates followed by
    the addresses added since, in that order. *)
Theorem addresses_dialed_in_order_once candidates tr s :
  exec tr (init candidates) = Some s ->
  dialed s ++ peerList s = candidates ++ added tr.
Proof.
  intros Hex. by rewrite (exec_addresses tr _ _ Hex).
Qed.

Lemma step_after_return l s s' :
  returned (loc s) = true -> step l s = Some s' ->
  loc s' = loc s /\ dialed s' = dialed s /\ (limiter s' <= limiter s)%nat.
Proof.
  intros Hret Hstep. unfold dialed.
  destruct l; simpl in Hstep.
  - by destruct (loc s).
  - by destruct (loc s).
  - destruct (stopC s); [|done]. by destruct (loc s).
  - by injection Hstep as <-.
  - by injection Hstep as <-.
  - destruct (workers s !! i) as [[addr ws]|]; [|done].
    destruct ws; try done. injection Hstep as <-. simpl.
    by rewrite map_fst_alter.
  - destruct (workers s !! i) as [[addr ws]|]; [|done].
    destruct ws; try done.
    destruct (limiter s) as [|n]; [done|].
    injection Hstep as <-. simpl. rewrite map_fst_alter. split_and!; [done..|lia].
Qed.

(** X15: once [Run] has returned it starts no further dial and takes no
    further slot: whatever happens afterwards, the workers are those it had
    started, and the number of slots in [limiter] can only go down. *)
Theorem no_dial_after_return tr s s' :
  returned (loc s) = true ->
  exec tr s = Some s' ->
  loc s' = loc s /\ dialed s' = dialed s /\ (limiter s' <= limiter s)%nat.
Proof.
  revert s. induction tr as [|l tr IH]; intros s Hret Hex; simpl in Hex.
  - injection Hex as <-. by split_and!.
  - destruct (step l s) as [s1|] eqn:Hstep; [|done].
    destruct (step_after_return _ _ _ Hret Hstep) as (Hloc & Hd & Hlim).
    destruct (IH s1) as (Hloc' & Hd' & Hlim'); [by rewrite Hloc | done |].
    split_and!; [congruence | congruence | lia].
Qed.

Lemma step_stop l s s' :
  step l s = Some s' ->
  (returned (loc s) = true -> stopC s = true) ->
  (stopC s' = true ->
   stopC s = true \/ l = CloseStop) /\
  (returned (loc s') = true -> stopC s' = true).
Proof.
  intros Hstep Hinv. destruct l; simpl in Hstep.
  - destruct (loc s) eqn:Hloc; try done.
    destruct (limiter s <? maxDial)%nat; [|done].
    injection Hstep as <-. simpl. split; [by left|done].
  - destruct (loc s) eqn:Hloc; try done.
    destruct (peerList s); [done|].
    injection Hstep as <-. simpl. split; [by left|done].
  - destruct (stopC s) eqn:Hstop; [|done].
    destruct (loc s); try done; injection Hstep as <-; simpl;
      (split; [by left|done]).
  - injection Hstep as <-. simpl. split; [by right|done].
  - injection Hstep as <-. simpl. split; [by left|done].
  - destruct (workers s !! i) as [[addr ws]|]; [|done].
    destruct ws; try done. injection Hstep as <-. simpl. split; [by left|done].
  - destruct (workers s !! i) as [[addr ws]|]; [|done].
    destruct ws; try done.
    destruct (limiter s) as [|n]; [done|].
    injection Hstep as <-. simpl. split; [by left|done].
Qed.

Lemma exec_stop tr s s' :
  exec tr s = Some s' ->
  (returned (loc s) = true -> stopC s = true) ->
  (stopC s' = true -> stopC s = true \/ stop_requested tr = true) /\
  (returned (loc s') = true -> stopC s' = true).
Proof.
  revert s. induction tr as [|l tr IH]; intros s Hex Hinv; simpl in Hex.
  - injection Hex as <-. split; [by left|done].
  - destruct (step l s) as [s1|] eqn:Hstep; [|done].
    destruct (step_stop _ _ _ Hstep Hinv) as [Hone Hinv1].
    destruct (IH _ Hex Hinv1) as [Hrest Hinv'].
    split; [|done]. intros Hs'.
    destruct (Hrest Hs') as [Hs1|Hreq].
    + destruct (Hone Hs1) as [Hs0|Hl]; [by left|]. right. by rewrite Hl.
    + right. simpl. by rewrite Hreq, orb_true_r.
Qed.

(** X16: [Run] returns only on the stop signal: in every state where it
    has returned the stop channel is closed, and it was closed during the
    schedule; as long as nobody closes it, [Run] is still in its loop. *)
Theorem returns_only_when_stopped candidates tr s :
  exec tr (init candidates) = Some s ->
  (returned (loc s) = true -> stopC s = true /\ stop_requested tr = true) /\
  (stop_requested tr = false -> returned (loc s) = false).
Proof.
  intros Hex.
  destruct (exec_stop tr _ _ Hex) as [Hstop Hret]; [done|].
  assert (Hboth : returned (loc s) = true ->
                  stopC s = true /\ stop_requested tr = true).
  { intros Hr. pose proof (Hret Hr) as Hs. split; [done|].
    by destruct (Hstop Hs). }
  split; [done|]. intros Hno.
  destruct (returned (loc s)) eqn:Hr; [|done].
  destruct (Hboth eq_refl). congruence.
Qed.

(** Some worker still holds a slot when the count says so. *)
Lemma unreleased_worker (ws : list (string * WorkerState)) :
  (0 < List.length (List.filter holds_slot ws))%nat ->
  exists i addr st, ws !! i = Some (addr, st) /\ st <> Released.
Proof.
  induction ws as [|[addr st] ws IH]; simpl; [lia|].
  destruct st; simpl.
  - intros _. by exists 0%nat, addr, Running.
  - intros _. by exists 0%nat, addr, Finished.
  - intros Hpos. destruct (IH Hpos) as (i & a & st & Hi & Hst).
    by exists (S i), a, st.
Qed.

(** X17: a full limiter never blocks the dialer for good.  Whenever [Run]
    waits at the outer [select] with all 40 slots taken, some worker can
    move on: either it is still dialling and can finish, or it has finished
    and its callback can take its slot out of [limiter]. *)
Theorem full_limiter_can_drain candidates tr s :
  exec tr (init candidates) = Some s ->
  loc s = OuterSelect ->
  limiter s = maxDial ->
  exists i, is_Some (step (WorkerReturns i) s) \/ is_Some (step (OnFinish i) s).
Proof.
  intros Hex Hloc Hfull.
  destruct (balanced_exec tr _ _ (balanced_init candidates) Hex) as [_ Hbal].
  rewrite Hloc in Hbal. simpl in Hbal.
  destruct (unreleased_worker (workers s)) as (i & addr & st & Hi & Hst).
  { unfold unreleased in Hbal. unfold maxDial in Hfull. lia. }
  exists i. simpl. rewrite Hi. destruct st; [by left| |done].
  right. rewrite Hfull. unfold maxDial. eauto.
Qed.

Lemma dial_from n s :
  loc s = OuterSelect ->
  (limiter s + n <= maxDial)%nat ->
  (n <= List.length (peerList s))%nat ->
  exec (dial n) s
    = Some (mkState (limiter s + n) (drop n (peerList s))
                    (workers s ++ map (fun a => (a, Running))
                                      (take n (peerList s)))
                    (stopC s) OuterSelect).
Proof.
  revert s. induction n as [|n IH]; intros s Hloc Hcap Hlen.
  - destruct s as [lim pl ws st lc]. simpl in *. subst lc.
    by rewrite Nat.add_0_r, app_nil_r.
  - destruct s as [lim pl ws st lc]. simpl in *. subst lc.
    destruct pl as [|addr rest]; [simpl in Hlen; lia|].
    change (dial (S n)) with (SendLimiter :: RecvAddr :: dial n).
    assert (Hlt : (lim <? maxDial)%nat = true) by (apply Nat.ltb_lt; lia).
    cbn [exec step loc limiter peerList workers stopC]. rewrite Hlt.
    cbn [exec step loc limiter peerList workers stopC].
    rewrite IH; cbn [loc limiter peerList workers stopC];
      [| done | lia | simpl in Hlen; lia].
    simpl. rewrite <- app_assoc. simpl.
    by replace (lim + S n)%nat with (S (lim + n)) by lia.
Qed.

Lemma running_all (l : list string) :
  List.length (List.filter is_running (map (fun a => (a, Running)) l))
  = List.length l.
Proof. induction l as [|a l IH]; simpl; [done|]. by rewrite IH. Qed.

(** X18: the limit is 40 and not less.  With at least [n] candidates and
    [n] at most 40, the schedule that takes a slot and receives an address
    [n] times in a row is possible and leaves [n] workers dialling at once,
    for the first [n] candidates. *)
Theorem n_dials_at_once n candidates :
  (n <= maxDial)%nat ->
  (n <= List.length candidates)%nat ->
  exists s,
    exec (dial n) (init candidates) = Some s /\
    running s = n /\ limiter s = n /\
    dialed s = take n candidates /\ peerList s = drop n candidates.
Proof.
  intros Hn Hlen. eexists. split.
  - apply dial_from; [done| simpl; lia | done].
  - unfold running, dialed. simpl. split_and!; [|done| |done].
    + rewrite running_all. rewrite length_take. lia.
    + rewrite map_map. simpl. apply map_id.
Qed.

End DialerSchedules.

Section DialerScheduleExamples.

Import dialer.

Lemma addresses_dialed_in_order_once_witness :
  dialed after_one_dial ++ peerList after_one_dial
    = ["10.0.0.7:6881"] ++ added one_dial.
Proof.
  apply (addresses_dialed_in_order_once ["10.0.0.7:6881"] one_dial).
  reflexivity.
Defined.

Lemma no_dial_after_return_witness :
  loc (mkState 0 ["10.0.0.9:6881"] [("10.0.0.7:6881", Released)] true
               ReturnedOuter) = loc after_one_dial /\
  dialed (mkState 0 ["10.0.0.9:6881"] [("10.0.0.7:6881", Released)] true
                  ReturnedOuter) = dialed after_one_dial /\
  (limiter (mkState 0 ["10.0.0.9:6881"] [("10.0.0.7:6881", Released)] true
                    ReturnedOuter) <= limiter after_one_dial)%nat.
Proof.
  apply (no_dial_after_return [AddPeer "10.0.0.9:6881"; CloseStop]);
    reflexivity.
Defined.

Lemma returns_only_when_stopped_witness :
  (returned (loc after_one_dial) = true ->
   stopC after_one_dial = true /\ stop_requested one_dial = true) /\
  (stop_requested one_dial = false -> returned (loc after_one_dial) = false).
Proof.
  apply (returns_only_when_stopped ["10.0.0.7:6881"] one_dial).
  reflexivity.
Defined.

Lemma full_limiter_can_drain_witness :
  exists i, is_Some (step (WorkerReturns i) full_house)
            \/ is_Some (step (OnFinish i) full_house).
Proof.
  apply (full_limiter_can_drain candidates41 (dial 40));
    [vm_compute; reflexivity | reflexivity | reflexivity].
Defined.

Lemma n_dials_at_once_witness :
  exists s,
    exec (dial 40) (init candidates41) = Some s /\
    running s = 40%nat /\ limiter s = 40%nat /\
    dialed s = take 40 candidates41 /\ peerList s = drop 40 candidates41.
Proof.
  apply (n_dials_at_once 40 candidates41); vm_compute; lia.
Defined.

End DialerScheduleExamples.
